(** * Enrichment-and-delivery pipeline and producer client: model and properties

    This development embeds the two Go programs of the repository:

    - [Service]: the microservice of [service/main.go] ([enrichRecord],
      [processHandler], [startSendingToAnalytics], [sendToAnalytics]);
    - [Client]: the producer command-line client ([categoryMap],
      [sanitizeCategory]).

    Go strings are byte sequences, modelled by [string]; Go [int] and
    [time.Duration] values are modelled by [Z].  Network peers are the
    environment: each HTTP exchange is described by the reply it produced.
    Effects (log lines, HTTP calls, sleeps, channel sends, HTTP responses)
    are collected in a trace, in program order. *)

From Stdlib Require Import ZArith String Ascii List Lia DecimalString.
From stdpp Require Import base option list gmap strings sorting.

Local Open Scope Z_scope.

(** ** Formatting helpers shared by both programs *)

(** [%d] of package fmt on an integer: decimal digits, with a leading minus
    sign for negative values. *)
Definition formatInt (z : Z) : string := NilZero.string_of_int (Z.to_int z).

(** Two's-complement wrap-around of a 64-bit signed integer ([int64],
    the representation of [time.Duration]). *)
Definition wrap64 (z : Z) : Z := (z + 2 ^ 63) `mod` 2 ^ 64 - 2 ^ 63.

Module Service.

(** ** Data model ([service/main.go], lines 13-24) *)

Record RecordT := mkRecord {
  ID : string;
  AssetName : string;
  IP : string;
  CreatedUTC : string;
  Source : string;
  Category : string;
  ASN : string;
  CorrelationID : Z
}.

(** Capacity of [recordChannel = make(chan Record, 20)]. *)
Definition recordChannelCap : nat := 20.

Definition StatusOK : Z := 200.
Definition StatusBadRequest : Z := 400.
Definition StatusInternalServerError : Z := 500.

(** [time.Second], in nanoseconds. *)
Definition Second : Z := 1000000000.

(** The anonymous struct [enrichedData] decoded from the enrichment reply. *)
Record EnrichedData := mkEnriched {
  dASN : string;
  dCategory : string;
  dCorrelationID : Z
}.

(** The anonymous struct [response] decoded from the analytics reply. *)
Record AnalyticsData := mkAnalytics {
  aStatus : string;
  aItemsIngested : Z
}.

(** What one HTTP exchange produced, as seen by the caller:
    - [DoError err]: [client.Do] returned [err];
    - [ReadError code err]: a response with status [code] arrived but
      [io.ReadAll] of its body returned [err];
    - [Reply code body dec]: status [code] and body [body]; [dec] is what
      [json.Unmarshal] makes of the body ([inl err] when it fails). *)
Inductive HttpReply (A : Type) : Type :=
| DoError (err : string)
| ReadError (code : Z) (err : string)
| Reply (code : Z) (body : string) (dec : string + A).
Arguments DoError {A} err.
Arguments ReadError {A} code err.
Arguments Reply {A} code body dec.

(** Observable effects, in program order. *)
Inductive Effect : Type :=
| Log (msg : string)
| LogPayload (records : list RecordT)
| EnrichCall (attempt : Z) (id asset ip category : string)
| Sleep (d : Z)
| ChanSend (r : RecordT)
| AnalyticsCall (records : list RecordT)
| HttpError (msg : string) (code : Z)
| WriteHeader (code : Z)
| EncodeJSON (fields : list (string * string)).

(** ** Enrichment client ([enrichRecord], lines 66-127) *)

Definition maxRetries : Z := 3.

(** The body of one loop iteration after [client.Do] (lines 91-117): the
    log lines it writes, and the enriched record on the success path
    (lines 109-112). *)
Definition attemptOutcome (attempt : Z) (record : RecordT)
    (reply : HttpReply EnrichedData) : list Effect * option RecordT :=
  match reply with
  | DoError err =>
      ([Log ("Attempt " +:+ formatInt attempt
             +:+ ": Error calling Enrichment Service: " +:+ err)], None)
  | ReadError _ err =>
      ([Log ("Attempt " +:+ formatInt attempt
             +:+ ": Error reading response body: " +:+ err)], None)
  | Reply code body dec =>
      if code =? StatusOK then
        match dec with
        | inl err =>
            ([Log ("Attempt " +:+ formatInt attempt
                   +:+ ": Error unmarshalling response: " +:+ err)], None)
        | inr d =>
            ([], Some {| ID := ID record;
                         AssetName := AssetName record;
                         IP := IP record;
                         CreatedUTC := CreatedUTC record;
                         Source := Source record;
                         Category := dCategory d;
                         ASN := dASN d;
                         CorrelationID := dCorrelationID d |})
        end
      else
        ([Log ("Attempt " +:+ formatInt attempt
               +:+ ": Enrichment service returned status " +:+ formatInt code
               +:+ ", response: " +:+ body)], None)
  end.

(** The start of one loop iteration (lines 81-91): the log line and the
    request carrying [{id, asset, ip, category}]. *)
Definition attemptCall (attempt : Z) (record : RecordT) : list Effect :=
  [Log ("Attempt " +:+ formatInt attempt
        +:+ ": Calling Enrichment Service for record ID " +:+ ID record);
   EnrichCall attempt (ID record) (AssetName record) (IP record)
              (Category record)].

(** Result of a call of [enrichRecord]: its effects and its two return
    values. *)
Record EnrichRun := mkRun {
  effects : list Effect;
  ret : RecordT;
  err : option string
}.

(** The [for attempt := 1; attempt <= maxRetries; attempt++] loop.  [net]
    gives the reply to each attempt.  [json.Marshal] of a map of strings and
    [http.NewRequest] with a constant method and URL do not fail, so their
    error returns (lines 74-76 and 82-84) are not reachable.  The recursion
    is bounded by [fuel]; [enrichRecord_total] shows the bound is never
    hit. *)
Fixpoint enrichLoop (fuel : nat) (net : Z -> HttpReply EnrichedData)
    (record : RecordT) (attempt retryDelay : Z) : option EnrichRun :=
  match fuel with
  | O => None
  | S fuel' =>
      if attempt <=? maxRetries then
        let pre := attemptCall attempt record in
        let '(logs, res) := attemptOutcome attempt record (net attempt) in
        match res with
        | Some enriched => Some (mkRun (pre ++ logs) enriched None)
        | None =>
            if attempt <? maxRetries then
              match enrichLoop fuel' net record (attempt + 1)
                               (wrap64 (retryDelay * 2)) with
              | Some run =>
                  Some (mkRun (pre ++ logs ++ Sleep retryDelay :: effects run)
                              (ret run) (err run))
              | None => None
              end
            else
              Some (mkRun (pre ++ logs) record
                      (Some ("failed to enrich record after "
                             +:+ formatInt maxRetries +:+ " attempts")))
        end
      else
        Some (mkRun [] record (Some "unexpected error during enrichment"))
  end.

Definition enrichRecord (net : Z -> HttpReply EnrichedData)
    (record : RecordT) : option EnrichRun :=
  enrichLoop (S (Z.to_nat maxRetries)) net record 1 Second.

(** ** Intake handler ([processHandler], lines 34-64) *)

(** An inbound request, by what reading and decoding its body produce. *)
Inductive Inbound : Type :=
| BodyUnreadable (err : string)
| BodyMalformed (body err : string)
| BodyRecord (body : string) (record : RecordT).

(** [recordChannel <- r] on the buffered channel: accepted when fewer than
    [recordChannelCap] records are queued, otherwise the sender blocks
    ([None]). *)
Definition chanSend (r : RecordT) (chan : list RecordT) : option (list RecordT) :=
  if decide (length chan < recordChannelCap)%nat then Some (chan ++ [r]) else None.

(** A handler invocation either runs to its end, leaving the channel in
    state [chan], or is suspended at line 58 holding the enriched record. *)
Inductive HandlerResult : Type :=
| Finished (effs : list Effect) (chan : list RecordT)
| BlockedOnSend (effs : list Effect) (r : RecordT).

Definition processHandler (req : Inbound) (net : Z -> HttpReply EnrichedData)
    (chan : list RecordT) : option HandlerResult :=
  match req with
  | BodyUnreadable e =>
      Some (Finished [HttpError "Failed to read request body" StatusBadRequest;
                      Log ("Error reading request body: " +:+ e)] chan)
  | BodyMalformed _ e =>
      Some (Finished [HttpError "Invalid JSON format" StatusBadRequest;
                      Log ("Error unmarshalling JSON: " +:+ e)] chan)
  | BodyRecord _ record =>
      match enrichRecord net record with
      | None => None
      | Some run =>
          match err run with
          | Some e =>
              Some (Finished
                      (effects run ++
                       [HttpError "Failed to enrich record" StatusInternalServerError;
                        Log ("Error enriching record with ID " +:+ ID record
                             +:+ ": " +:+ e)])
                      chan)
          | None =>
              match chanSend (ret run) chan with
              | Some chan' =>
                  Some (Finished
                          (effects run ++
                           [ChanSend (ret run); WriteHeader StatusOK;
                            EncodeJSON [("status", "record processed")]])
                          chan')
              | None => Some (BlockedOnSend (effects run) (ret run))
              end
          end
      end
  end.

(** ** Analytics sender ([sendToAnalytics], lines 157-200) *)

(** [json.Marshal] of a slice of [Record] and [http.NewRequest] do not
    fail; [LogPayload] stands for the log line carrying the marshalled
    batch. *)
Definition sendToAnalytics (records : list RecordT)
    (sink : HttpReply AnalyticsData) : list Effect * option string :=
  let pre :=
    [Log ("Sending batch of " +:+ formatInt (Z.of_nat (length records))
          +:+ " records to Analytics Service");
     LogPayload records;
     AnalyticsCall records] in
  match sink with
  | DoError e => (pre, Some e)
  | ReadError _ e => (pre, Some e)
  | Reply code body dec =>
      if negb (code =? StatusOK) then
        (pre, Some ("analytics service returned status " +:+ formatInt code
                    +:+ ", response: " +:+ body))
      else
        match dec with
        | inl e => (pre, Some e)
        | inr d =>
            (pre ++ [Log ("Successfully sent batch to Analytics Service. Items Ingested: "
                          +:+ formatInt (aItemsIngested d))], None)
        end
  end.

(** ** Batch dispatcher ([startSendingToAnalytics], lines 129-155) *)

(** The case taken by one [select]: a record received from
    [recordChannel], or a tick of the 10-second ticker (with the reply the
    sink gives if a batch is sent). *)
Inductive SelectCase : Type :=
| RecvRecord (record : RecordT)
| TickerFired (sink : HttpReply AnalyticsData).

(** One iteration of the [for { select { ... } }] loop on the local slice
    [batch]: the effects and the new value of [batch].  [recordsToSend]
    shares its backing array with [batch], but it is used only by the
    synchronous call of [sendToAnalytics], before any later [append]; the
    slices are therefore modelled as values. *)
Definition dispatcherIteration (c : SelectCase) (batch : list RecordT)
    : list Effect * list RecordT :=
  match c with
  | RecvRecord record => ([], batch ++ [record])
  | TickerFired sink =>
      if decide (0 < length batch)%nat then
        let '(recordsToSend, batch') :=
          if decide (20 <= length batch)%nat
          then (take 20 batch, drop 20 batch)
          else (batch, take 0 batch) in
        let '(effs, e) := sendToAnalytics recordsToSend sink in
        (effs ++ match e with
                 | Some e =>
                     [Log ("Failed to send batch to Analytics Service: " +:+ e)]
                 | None => []
                 end,
         batch')
      else ([], batch)
  end.

(** ** The running service

    The shared channel, the dispatcher's local slice, and the trace of all
    effects so far. *)
Record System := mkSystem {
  recordChannel : list RecordT;
  batch : list RecordT;
  trace : list Effect
}.

Definition initial : System := mkSystem [] [] [].

(** Scheduling events.  [Submit] is one [processHandler] invocation, placed
    at the moment its channel send (if any) is accepted; [Receive] and
    [Tick] are the two cases of the dispatcher's [select], and successive
    [Tick]s are one ticker period (10 s) apart. *)
Inductive Event : Type :=
| Submit (req : Inbound) (net : Z -> HttpReply EnrichedData)
| Receive
| Tick (sink : HttpReply AnalyticsData).

(** [None]: the event cannot take place in this state (the handler is
    blocked on a full channel, or there is nothing to receive). *)
Definition step (e : Event) (s : System) : option System :=
  match e with
  | Submit req net =>
      match processHandler req net (recordChannel s) with
      | Some (Finished effs chan') =>
          Some (mkSystem chan' (batch s) (trace s ++ effs))
      | _ => None
      end
  | Receive =>
      match recordChannel s with
      | [] => None
      | record :: rest =>
          let '(effs, batch') := dispatcherIteration (RecvRecord record) (batch s) in
          Some (mkSystem rest batch' (trace s ++ effs))
      end
  | Tick sink =>
      let '(effs, batch') := dispatcherIteration (TickerFired sink) (batch s) in
      Some (mkSystem (recordChannel s) batch' (trace s ++ effs))
  end.

Fixpoint run (evs : list Event) (s : System) : option System :=
  match evs with
  | [] => Some s
  | e :: evs' =>
      match step e s with
      | Some s' => run evs' s'
      | None => None
      end
  end.

(** ** Observations on traces *)

(** Records sent on [recordChannel], in order. *)
Definition enqueued (tr : list Effect) : list RecordT :=
  omap (fun e => match e with ChanSend r => Some r | _ => None end) tr.

(** Batches handed to the analytics sink, in order. *)
Definition dispatched (tr : list Effect) : list (list RecordT) :=
  omap (fun e => match e with AnalyticsCall b => Some b | _ => None end) tr.

(** Calls to the enrichment endpoint and backoff waits, in order. *)
Definition timing (tr : list Effect) : list Effect :=
  omap (fun e => match e with EnrichCall _ _ _ _ _ | Sleep _ => Some e | _ => None end) tr.

Definition attempts (tr : list Effect) : list Z :=
  omap (fun e => match e with EnrichCall a _ _ _ _ => Some a | _ => None end) tr.

Definition sleeps (tr : list Effect) : list Z :=
  omap (fun e => match e with Sleep d => Some d | _ => None end) tr.

Definition totalSleep (tr : list Effect) : Z := foldr Z.add 0 (sleeps tr).

(** The retry schedule of a call that uses all its attempts. *)
Definition fullSchedule (record : RecordT) : list Effect :=
  [EnrichCall 1 (ID record) (AssetName record) (IP record) (Category record);
   Sleep Second;
   EnrichCall 2 (ID record) (AssetName record) (IP record) (Category record);
   Sleep (2 * Second);
   EnrichCall 3 (ID record) (AssetName record) (IP record) (Category record)].

Definition isLog (e : Effect) : Prop :=
  match e with Log _ => True | _ => False end.

(** The shape of every run of [enrichRecord]: which attempt ended it, the
    log lines [l1], [l2], [l3] of the attempts made, and the outcome. *)
Inductive RunShape (net : Z -> HttpReply EnrichedData) (record : RecordT)
    : EnrichRun -> Prop :=
| EndsAt1 l1 enriched :
    attemptOutcome 1 record (net 1) = (l1, Some enriched) ->
    RunShape net record (mkRun (attemptCall 1 record ++ l1) enriched None)
| EndsAt2 l1 l2 enriched :
    Forall isLog l1 ->
    attemptOutcome 2 record (net 2) = (l2, Some enriched) ->
    RunShape net record
      (mkRun (attemptCall 1 record ++ l1 ++ Sleep Second ::
              attemptCall 2 record ++ l2) enriched None)
| EndsAt3 l1 l2 l3 enriched :
    Forall isLog l1 -> Forall isLog l2 ->
    attemptOutcome 3 record (net 3) = (l3, Some enriched) ->
    RunShape net record
      (mkRun (attemptCall 1 record ++ l1 ++ Sleep Second ::
              attemptCall 2 record ++ l2 ++ Sleep (2 * Second) ::
              attemptCall 3 record ++ l3) enriched None)
| GivesUp l1 l2 l3 :
    Forall isLog l1 -> Forall isLog l2 -> Forall isLog l3 ->
    (attemptOutcome 1 record (net 1)).2 = None ->
    (attemptOutcome 2 record (net 2)).2 = None ->
    (attemptOutcome 3 record (net 3)).2 = None ->
    RunShape net record
      (mkRun (attemptCall 1 record ++ l1 ++ Sleep Second ::
              attemptCall 2 record ++ l2 ++ Sleep (2 * Second) ::
              attemptCall 3 record ++ l3) record
         (Some "failed to enrich record after 3 attempts")).

(** Records held between enrichment and dispatch. *)
Definition held (s : System) : nat :=
  (length (recordChannel s) + length (batch s))%nat.

(** The record accepted by a [Submit] event, if its enrichment succeeds. *)
Definition accepted (e : Event) : option RecordT :=
  match e with
  | Submit (BodyRecord _ record) net =>
      match enrichRecord net record with
      | Some run => match err run with None => Some (ret run) | Some _ => None end
      | None => None
      end
  | _ => None
  end.

(** Every record handed to the channel is, in hand-off order, first in the
    batches already sent, then in the dispatcher's pending slice, then in
    the channel. *)
Definition accounted (s : System) : Prop :=
  enqueued (trace s) =
  concat (dispatched (trace s)) ++ batch s ++ recordChannel s.

Definition batchesBounded (s : System) : Prop :=
  Forall (fun b => (0 < length b <= 20)%nat) (dispatched (trace s)).

Definition channelBounded (s : System) : Prop :=
  (length (recordChannel s) <= recordChannelCap)%nat.

Definition isTick (e : Event) : Prop :=
  match e with Tick _ => True | _ => False end.

(** The enrichment of [record] under [net] ends in an error. *)
Definition enrichFails (net : Z -> HttpReply EnrichedData) (record : RecordT) : Prop :=
  exists run e, enrichRecord net record = Some run /\ err run = Some e.

(** The delivery call ends in an error. *)
Definition sendFails (sink : HttpReply AnalyticsData) : Prop :=
  forall records, (sendToAnalytics records sink).2 <> None.

(** ** Further observations *)

(** The reply is a status-200 response whose body decodes. *)
Definition wellFormed {A} (reply : HttpReply A) : bool :=
  match reply with
  | Reply code _ (inr _) => code =? StatusOK
  | _ => false
  end.

(** Status codes written by [w.WriteHeader], in order. *)
Definition acks (tr : list Effect) : list Z :=
  omap (fun e => match e with WriteHeader code => Some code | _ => None end) tr.

(** Status codes written by [http.Error], in order. *)
Definition rejections (tr : list Effect) : list Z :=
  omap (fun e => match e with HttpError _ code => Some code | _ => None end) tr.

Definition countSubmits (evs : list Event) : nat :=
  length (omap (fun e => match e with Submit req _ => Some req | _ => None end) evs).

Definition countTicks (evs : list Event) : nat :=
  length (omap (fun e => match e with Tick sink => Some sink | _ => None end) evs).


End Service.

Module Client.

(** ** Category normalization of the producer client *)

(** The entries of the [categoryMap] literal (lines 25-64), in source
    order.  The keys of a Go map literal are pairwise distinct. *)
Definition categoryEntries : list (string * string) :=
  [ ("contentinjection", "contentinjection");
    ("content injection", "contentinjection");
    ("content_injection", "contentinjection");

    ("drivebycompromise", "drivebycompromise");
    ("drive by compromise", "drivebycompromise");
    ("drive-by-compromise", "drivebycompromise");
    ("compromise (driveby)", "drivebycompromise");

    ("exploitpublicfacingapplication", "exploitpublicfacingapplication");
    ("exploit public facing", "exploitpublicfacingapplication");
    ("explaoit-public facing", "exploitpublicfacingapplication");

    ("externalremoteservices", "externalremoteservices");
    ("external remote service", "externalremoteservices");
    ("external-remote-service", "externalremoteservices");

    ("phishing", "phishing");
    ("phising", "phishing");
    ("Phising", "phishing");

    ("replicationthroughremovablemedia", "replicationthroughremovablemedia");
    ("replication through removable media", "replicationthroughremovablemedia");
    ("Replication through removable media", "replicationthroughremovablemedia");
    ("replication-through-removable-media", "replicationthroughremovablemedia");

    ("supplychaincompromise", "supplychaincompromise");
    ("supply chain compromise", "supplychaincompromise");
    ("supply_chain_compromise", "supplychaincompromise");

    ("trustedrelationship", "trustedrelationship");
    ("trusted relationship", "trustedrelationship");
    ("trusted-relationship", "trustedrelationship");

    ("validaccounts", "validaccounts");
    ("valid accounts", "validaccounts");
    ("valid-accounts", "validaccounts");
    ("valida_accounts", "validaccounts") ].

Definition categoryMap : gmap string string := list_to_map categoryEntries.

Section GoStrings.

(** [strings.ToLower] and [strings.TrimSpace] of the Go standard
    library. *)
Variables ToLower TrimSpace : string -> string.

Definition normalize (category : string) : string :=
  TrimSpace (ToLower category).

Definition sanitizeCategory (category : string) : string :=
  let normalizedCategory := normalize category in
  match categoryMap !! normalizedCategory with
  | Some correctCategory => correctCategory
  | None => normalizedCategory
  end.

End GoStrings.

(** ** The standard-library functions on ASCII strings

    On a string whose bytes are all below 0x80, [strings.ToLower] maps the
    bytes ['A'..'Z'] to ['a'..'z'] and [strings.TrimSpace] removes the
    leading, then the trailing, bytes among tab, line feed, vertical tab,
    form feed, carriage return and space. *)

Definition lowerByte (c : ascii) : ascii :=
  let n := nat_of_ascii c in
  if ((65 <=? n) && (n <=? 90))%nat then ascii_of_nat (n + 32) else c.

Fixpoint asciiToLower (s : string) : string :=
  match s with
  | EmptyString => EmptyString
  | String c s' => String (lowerByte c) (asciiToLower s')
  end.

Definition asciiSpace (c : ascii) : bool :=
  let n := nat_of_ascii c in
  ((9 <=? n) && (n <=? 13) || (n =? 32))%nat.

Fixpoint trimLeft (s : string) : string :=
  match s with
  | EmptyString => EmptyString
  | String c s' => if asciiSpace c then trimLeft s' else s
  end.

Fixpoint trimRight (s : string) : string :=
  match s with
  | EmptyString => EmptyString
  | String c s' =>
      match trimRight s' with
      | EmptyString => if asciiSpace c then EmptyString else String c EmptyString
      | t => String c t
      end
  end.

Definition asciiTrimSpace (s : string) : string := trimRight (trimLeft s).

(** The string does not begin with a space byte. *)
Definition startsClean (s : string) : Prop :=
  match s with
  | EmptyString => True
  | String c _ => asciiSpace c = false
  end.

(** [strings.EqualFold] on ASCII strings: equality up to the case of the
    letters ['A'..'Z']. *)
Definition asciiEqualFold (s t : string) : bool :=
  String.eqb (asciiToLower s) (asciiToLower t).

(** All bytes of the string are space bytes. *)
Fixpoint allSpace (s : string) : bool :=
  match s with
  | EmptyString => true
  | String c s' => asciiSpace c && allSpace s'
  end.

(** ** Reading the file ([readCSV], lines 131-187) *)

Record RecordT := mkRecord {
  ID : string;
  AssetName : string;
  IP : string;
  CreatedUTC : string;
  Source : string;
  Category : string
}.

(** What one call of [reader.Read] returns before the end of the file: a
    row of fields, or an error other than [io.EOF]. *)
Inductive ReadResult : Type :=
| RowOK (row : list string)
| RowErr (err : string).

(** [os.Open] fails, or the file yields the given results and then
    [io.EOF]. *)
Inductive OpenResult : Type :=
| OpenErr (err : string)
| Opened (reads : list ReadResult).

(** The variables of the loop: the two result slices and the lines
    printed so far. *)
Record ReadState := mkReadState {
  records : list RecordT;
  skippedRecords : list Z;
  printed : list string
}.

Inductive RowOutcome : Type :=
| Keep (record : RecordT)
| Skip (message : string).

Section Reading.

Variables ToLower TrimSpace : string -> string.

(** The loop body for a row that is not the header (lines 156-183). *)
Definition classifyRow (lineNumber : Z) (r : ReadResult) : RowOutcome :=
  match r with
  | RowErr e =>
      Skip ("Error reading line " +:+ formatInt lineNumber +:+ ": " +:+ e)
  | RowOK row =>
      if negb (length row =? 6)%nat then
        Skip ("Skipping line " +:+ formatInt lineNumber
              +:+ " due to incorrect number of fields (expected 6, got "
              +:+ formatInt (Z.of_nat (length row)) +:+ ")")
      else
        let category := sanitizeCategory ToLower TrimSpace (nth 5 row "") in
        if String.eqb category "" then
          Skip ("Skipping line " +:+ formatInt lineNumber
                +:+ " due to blank category field")
        else
          Keep (mkRecord (nth 0 row "") (nth 1 row "") (nth 2 row "")
                         (nth 3 row "") (nth 4 row "") category)
  end.

(** The [for] loop of [readCSV]; [lineNumber] is a Go [int], incremented
    with wrap-around. *)
Fixpoint readLoop (reads : list ReadResult) (lineNumber : Z) (st : ReadState)
    : ReadState :=
  match reads with
  | [] => st
  | r :: rest =>
      let lineNumber := wrap64 (lineNumber + 1) in
      if lineNumber =? 1 then readLoop rest lineNumber st
      else
        match classifyRow lineNumber r with
        | Keep record =>
            readLoop rest lineNumber
              (mkReadState (records st ++ [record]) (skippedRecords st) (printed st))
        | Skip message =>
            readLoop rest lineNumber
              (mkReadState (records st) (skippedRecords st ++ [lineNumber])
                           (printed st ++ [message]))
        end
  end.

Definition readCSV (file : OpenResult) : ReadState * option string :=
  match file with
  | OpenErr e => (mkReadState [] [] [], Some e)
  | Opened reads => (readLoop reads 0 (mkReadState [] [] []), None)
  end.

(** The record a data row yields, if it is kept. *)
Definition keptRecord (r : ReadResult) : option RecordT :=
  match classifyRow 0 r with
  | Keep record => Some record
  | Skip _ => None
  end.

(** The line number reported for a numbered data row, if it is skipped,
    and the line printed for it. *)
Definition skippedLine (p : Z * ReadResult) : option Z :=
  match classifyRow p.1 p.2 with
  | Keep _ => None
  | Skip _ => Some p.1
  end.

Definition skipMessage (p : Z * ReadResult) : option string :=
  match classifyRow p.1 p.2 with
  | Keep _ => None
  | Skip message => Some message
  end.

End Reading.

(** The rows paired with their line numbers, counted from [first]. *)
Definition numberedFrom (first : Z) (reads : list ReadResult)
    : list (Z * ReadResult) :=
  zip (seqZ first (Z.of_nat (length reads))) reads.

(** ** Filtering ([filterRecordsByCategory], [filterRecordsById], and their
    use in [main], lines 87-94) *)

Section Filtering.

(** [strings.EqualFold] of the Go standard library. *)
Variable EqualFold : string -> string -> bool.

Definition filterRecordsByCategory (records : list RecordT) (category : string)
    : list RecordT :=
  fold_left
    (fun filtered record =>
       if EqualFold (Category record) category then filtered ++ [record]
       else filtered)
    records [].

Definition filterRecordsById (records : list RecordT) (id : string)
    : list RecordT :=
  fold_left
    (fun filtered record =>
       if EqualFold (ID record) id then filtered ++ [record] else filtered)
    records [].

(** The records [main] goes on to send, given the two flags. *)
Definition selectRecords (records : list RecordT) (filterCategory filterId : string)
    : list RecordT :=
  let records :=
    if negb (String.eqb filterCategory "")
    then filterRecordsByCategory records filterCategory else records in
  let records :=
    if negb (String.eqb filterId "")
    then filterRecordsById records filterId else records in
  records.

End Filtering.

End Client.

(** ** Concrete scenarios *)

Module Scenario.
Import Service.

Definition recordOf (id : string) : RecordT :=
  mkRecord id "asset" "10.0.0.1" "2021-01-01T00:00:00Z" "source" "phishing" "" 0.

Definition recX : RecordT := recordOf "X".
Definition recY : RecordT := recordOf "Y".

(** The enrichment endpoint answers every attempt with status 500. *)
Definition net500 : Z -> HttpReply EnrichedData :=
  fun _ => Reply 500 "unavailable" (inl "no body").

(** The enrichment endpoint answers every attempt successfully. *)
Definition netOK : Z -> HttpReply EnrichedData :=
  fun _ => Reply StatusOK "ok" (inr (mkEnriched "AS64500" "phishing" 42)).

(** The first attempt is refused, the second succeeds. *)
Definition netFlaky : Z -> HttpReply EnrichedData :=
  fun attempt => if attempt =? 1 then DoError "connection refused" else netOK attempt.

Definition sinkOK : HttpReply AnalyticsData :=
  Reply StatusOK "ok" (inr (mkAnalytics "ok" 20)).

Definition sinkDown : HttpReply AnalyticsData := DoError "connection refused".

(** The [n]-th record of a burst, identified by its number. *)
Definition numbered (n : nat) : RecordT := recordOf (formatInt (Z.of_nat n)).

(** The [n]-th record as enriched by [netOK]. *)
Definition delivered (n : nat) : RecordT :=
  mkRecord (formatInt (Z.of_nat n)) "asset" "10.0.0.1" "2021-01-01T00:00:00Z"
           "source" "phishing" "AS64500" 42.

(** [n] submissions, each received by the dispatcher at once. *)
Definition burst (n : nat) : list Event :=
  flat_map (fun i => [Submit (BodyRecord "" (numbered i)) netOK; Receive]) (seq 0 n).

(** [n] submissions with nobody receiving. *)
Definition flood (n : nat) : list Event :=
  map (fun i => Submit (BodyRecord "" (numbered i)) netOK) (seq 0 n).

(** Record "X" is refused by the enrichment endpoint, record "Y" is
    enriched, received and dispatched. *)
Definition rejectedX : list Event :=
  [Submit (BodyRecord "" recX) net500;
   Submit (BodyRecord "" recY) netOK;
   Receive;
   Tick sinkOK].

(** A mixed run: a malformed body, a refused record, an enriched one,
    then two ticks. *)
Definition mixed : list Event :=
  [Submit (BodyMalformed "{" "unexpected end of JSON input") netOK;
   Submit (BodyRecord "" recX) net500;
   Submit (BodyRecord "" recY) netFlaky;
   Receive;
   Tick sinkDown;
   Tick sinkOK].

End Scenario.

Module ClientScenario.
Import Client.

(** A file with a header, two good rows, a short row, a row the reader
    rejects and a row with a blank category. *)
Definition sampleReads : list ReadResult :=
  [RowOK ["id"; "asset_name"; "ip"; "created_utc"; "source"; "category"];
   RowOK ["1"; "web-01"; "10.0.0.1"; "2021-01-01T00:00:00Z"; "ids"; "  Phising "];
   RowOK ["2"; "web-02"; "10.0.0.2"];
   RowErr "bare quote in non-quoted field";
   RowOK ["4"; "db-01"; "10.0.0.4"; "2021-01-02T00:00:00Z"; "edr"; "   "];
   RowOK ["5"; "db-02"; "10.0.0.5"; "2021-01-03T00:00:00Z"; "edr"; "Ransomware"]].

End ClientScenario.

(** * Properties of the service *)

Module ServiceTheory.
Import Service.

Lemma formatInt_maxRetries : formatInt maxRetries = "3".
Proof. reflexivity. Qed.

(** The three-attempt unfolding of [enrichRecord]. *)
Lemma enrichRecord_eq net record :
  enrichRecord net record =
  match attemptOutcome 1 record (net 1) with
  | (l1, Some enriched) => Some (mkRun (attemptCall 1 record ++ l1) enriched None)
  | (l1, None) =>
      match attemptOutcome 2 record (net 2) with
      | (l2, Some enriched) =>
          Some (mkRun (attemptCall 1 record ++ l1 ++ Sleep Second ::
                       attemptCall 2 record ++ l2) enriched None)
      | (l2, None) =>
          match attemptOutcome 3 record (net 3) with
          | (l3, Some enriched) =>
              Some (mkRun (attemptCall 1 record ++ l1 ++ Sleep Second ::
                           attemptCall 2 record ++ l2 ++ Sleep (2 * Second) ::
                           attemptCall 3 record ++ l3) enriched None)
          | (l3, None) =>
              Some (mkRun (attemptCall 1 record ++ l1 ++ Sleep Second ::
                           attemptCall 2 record ++ l2 ++ Sleep (2 * Second) ::
                           attemptCall 3 record ++ l3) record
                      (Some "failed to enrich record after 3 attempts"))
          end
      end
  end.
Proof.
  unfold enrichRecord.
  change (S (Z.to_nat maxRetries)) with 4%nat.
  cbn [enrichLoop].
  change (1 <=? maxRetries) with true; change (1 <? maxRetries) with true.
  change (1 + 1 <=? maxRetries) with true; change (1 + 1 <? maxRetries) with true.
  change (1 + 1 + 1 <=? maxRetries) with true; change (1 + 1 + 1 <? maxRetries) with false.
  change (1 + 1 + 1) with 3; change (1 + 1) with 2.
  change (wrap64 (Second * 2)) with (2 * Second).
  cbv iota.
  destruct (attemptOutcome 1 record (net 1)) as [l1 [e1|]]; [reflexivity|].
  destruct (attemptOutcome 2 record (net 2)) as [l2 [e2|]]; [reflexivity|].
  destruct (attemptOutcome 3 record (net 3)) as [l3 [e3|]]; reflexivity.
Qed.

(** More fuel does not change the result of the loop. *)
Lemma enrichLoop_more_fuel fuel net record :
  forall attempt delay run,
    enrichLoop fuel net record attempt delay = Some run ->
    enrichLoop (S fuel) net record attempt delay = Some run.
Proof.
  induction fuel as [|fuel IH]; intros attempt delay run Hrun; [discriminate|].
  revert Hrun. cbn [enrichLoop].
  destruct (attempt <=? maxRetries); [|trivial].
  destruct (attemptOutcome attempt record (net attempt)) as [logs [e|]]; [trivial|].
  destruct (attempt <? maxRetries); [|trivial].
  destruct (enrichLoop fuel net record (attempt + 1) (wrap64 (delay * 2)))
    as [run'|] eqn:Hrec; [|discriminate].
  intros Hrun. apply IH in Hrec. cbn [enrichLoop] in Hrec. rewrite Hrec. exact Hrun.
Qed.

(** [enrichRecord] always returns. *)
Lemma enrichRecord_total net record : is_Some (enrichRecord net record).
Proof.
  rewrite enrichRecord_eq.
  destruct (attemptOutcome 1 record (net 1)) as [l1 [e1|]]; [eauto|].
  destruct (attemptOutcome 2 record (net 2)) as [l2 [e2|]]; [eauto|].
  destruct (attemptOutcome 3 record (net 3)) as [l3 [e3|]]; eauto.
Qed.

Lemma attemptOutcome_success attempt record reply logs enriched :
  attemptOutcome attempt record reply = (logs, Some enriched) ->
  logs = [] /\
  exists body d,
    reply = Reply StatusOK body (inr d) /\
    enriched = mkRecord (ID record) (AssetName record) (IP record)
                 (CreatedUTC record) (Source record)
                 (dCategory d) (dASN d) (dCorrelationID d).
Proof.
  destruct reply as [e|code e|code body [e|d]]; cbn [attemptOutcome];
    try discriminate.
  - destruct (code =? StatusOK); discriminate.
  - destruct (code =? StatusOK) eqn:Hcode; [|discriminate].
    apply Z.eqb_eq in Hcode. subst code.
    intros [= <- <-]. split; [reflexivity|]. eauto.
Qed.

Lemma attemptOutcome_logs attempt record reply :
  Forall isLog (attemptOutcome attempt record reply).1.
Proof.
  destruct reply as [e|code e|code body [e|d]]; cbn [attemptOutcome];
    try destruct (code =? StatusOK); cbn [fst]; repeat constructor.
Qed.

(** An observation that ignores log lines sees nothing in a list of log
    lines. *)
Lemma omap_logs {B} (f : Effect -> option B) (l : list Effect) :
  (forall msg, f (Log msg) = None) -> Forall isLog l -> omap f l = [].
Proof.
  intros Hf Hl. induction Hl as [|e l He _ IH]; [reflexivity|].
  destruct e; try contradiction. cbn [omap list_omap]. rewrite Hf. exact IH.
Qed.

Lemma enrichRecord_shape net record run :
  enrichRecord net record = Some run -> RunShape net record run.
Proof.
  rewrite enrichRecord_eq.
  pose proof (attemptOutcome_logs 1 record (net 1)) as L1.
  pose proof (attemptOutcome_logs 2 record (net 2)) as L2.
  pose proof (attemptOutcome_logs 3 record (net 3)) as L3.
  destruct (attemptOutcome 1 record (net 1)) as [l1 [e1|]] eqn:H1; cbn [fst] in L1.
  { intros [= <-]. exact (EndsAt1 net record l1 e1 H1). }
  destruct (attemptOutcome 2 record (net 2)) as [l2 [e2|]] eqn:H2; cbn [fst] in L2.
  { intros [= <-]. exact (EndsAt2 net record l1 l2 e2 L1 H2). }
  destruct (attemptOutcome 3 record (net 3)) as [l3 [e3|]] eqn:H3; cbn [fst] in L3.
  { intros [= <-]. exact (EndsAt3 net record l1 l2 l3 e3 L1 L2 H3). }
  intros [= <-]. apply (GivesUp net record l1 l2 l3); first [assumption | by rewrite ?H1, ?H2, ?H3].
Qed.

Lemma timing_logs l : Forall isLog l -> timing l = [].
Proof. by apply omap_logs. Qed.

Lemma sleeps_logs l : Forall isLog l -> sleeps l = [].
Proof. by apply omap_logs. Qed.

Lemma attempts_logs l : Forall isLog l -> attempts l = [].
Proof. by apply omap_logs. Qed.

Lemma enqueued_logs l : Forall isLog l -> enqueued l = [].
Proof. by apply omap_logs. Qed.

Lemma dispatched_logs l : Forall isLog l -> dispatched l = [].
Proof. by apply omap_logs. Qed.

(** Normalizes an observation of the effects of a run of known shape. *)
Ltac observe obs obs_logs :=
  unfold obs; cbn [effects attemptCall app];
  repeat (rewrite omap_app || cbn [omap list_omap app]);
  fold obs; rewrite ?obs_logs by assumption; cbn [app].

(** An enrichment call touches neither the channel nor the sink. *)
Lemma enrichRecord_enqueued net record run :
  enrichRecord net record = Some run -> enqueued (effects run) = [].
Proof.
  intros Hrun. apply enrichRecord_shape in Hrun.
  destruct Hrun as [l1 e H1|l1 l2 e L1 H2|l1 l2 l3 e L1 L2 H3|l1 l2 l3 L1 L2 L3 _ _ _];
    try (apply attemptOutcome_success in H1 as [-> _]);
    try (apply attemptOutcome_success in H2 as [-> _]);
    try (apply attemptOutcome_success in H3 as [-> _]);
    observe enqueued enqueued_logs; reflexivity.
Qed.

Lemma enrichRecord_dispatched net record run :
  enrichRecord net record = Some run -> dispatched (effects run) = [].
Proof.
  intros Hrun. apply enrichRecord_shape in Hrun.
  destruct Hrun as [l1 e H1|l1 l2 e L1 H2|l1 l2 l3 e L1 L2 H3|l1 l2 l3 L1 L2 L3 _ _ _];
    try (apply attemptOutcome_success in H1 as [-> _]);
    try (apply attemptOutcome_success in H2 as [-> _]);
    try (apply attemptOutcome_success in H3 as [-> _]);
    observe dispatched dispatched_logs; reflexivity.
Qed.

(** ** Enrichment client *)

(** Whatever the outcome, the returned record carries the id of the
    input. *)
Lemma enrichRecord_keeps_ID net record run :
  enrichRecord net record = Some run -> ID (ret run) = ID record.
Proof.
  intros Hrun. apply enrichRecord_shape in Hrun.
  destruct Hrun as [l1 e H|l1 l2 e _ H|l1 l2 l3 e _ _ H|]; [| | |reflexivity];
    by apply attemptOutcome_success in H as [_ (body & d & _ & ->)].
Qed.

(** C3. Whenever [enrichRecord] succeeds, the record it returns keeps the
    [id], [assetName], [ip], [createdUtc] and [source] of its input, and its
    [asn], [category] and [correlationId] are those of the enrichment
    service's response (the well-formed status-200 reply of one of the at
    most three attempts). *)
Theorem enrichRecord_success_fields net record run :
  enrichRecord net record = Some run ->
  err run = None ->
  exists attempt body d,
    1 <= attempt <= maxRetries /\
    net attempt = Reply StatusOK body (inr d) /\
    ID (ret run) = ID record /\
    AssetName (ret run) = AssetName record /\
    IP (ret run) = IP record /\
    CreatedUTC (ret run) = CreatedUTC record /\
    Source (ret run) = Source record /\
    ASN (ret run) = dASN d /\
    Category (ret run) = dCategory d /\
    CorrelationID (ret run) = dCorrelationID d.
Proof.
  intros Hrun Herr. apply enrichRecord_shape in Hrun.
  destruct Hrun as [l1 e H|l1 l2 e _ H|l1 l2 l3 e _ _ H|]; [| | |discriminate];
    apply attemptOutcome_success in H as [_ (body & d & Hnet & ->)];
    [exists 1|exists 2|exists 3]; exists body, d; cbn [ret];
    unfold maxRetries; repeat split; try lia; try exact Hnet.
Qed.

Lemma enrichRecord_success_fields_witness :
  exists run,
    enrichRecord Scenario.netFlaky Scenario.recX = Some run /\
    exists attempt body d,
      1 <= attempt <= maxRetries /\
      Scenario.netFlaky attempt = Reply StatusOK body (inr d) /\
      ID (ret run) = "X" /\
      AssetName (ret run) = "asset" /\
      IP (ret run) = "10.0.0.1" /\
      CreatedUTC (ret run) = "2021-01-01T00:00:00Z" /\
      Source (ret run) = "source" /\
      ASN (ret run) = dASN d /\
      Category (ret run) = dCategory d /\
      CorrelationID (ret run) = dCorrelationID d.
Proof.
  eexists. split; [vm_compute; reflexivity|].
  eapply (enrichRecord_success_fields Scenario.netFlaky Scenario.recX);
    vm_compute; reflexivity.
Defined.

(** C4. A single enrichment call makes at most 3 attempts; its calls and
    waits, in order, are an initial part of: attempt 1, wait 1 s, attempt 2,
    wait 2 s, attempt 3.  So the wait before the second attempt is 1 time
    unit and the wait before the third is 2 (the delay doubles, starting
    at 1). *)
Theorem enrichRecord_retry_schedule net record run :
  enrichRecord net record = Some run ->
  (length (attempts (effects run)) <= 3)%nat /\
  attempts (effects run) `prefix_of` [1; 2; 3] /\
  timing (effects run) `prefix_of` fullSchedule record.
Proof.
  intros Hrun. apply enrichRecord_shape in Hrun.
  destruct Hrun as [l1 e H1|l1 l2 e L1 H2|l1 l2 l3 e L1 L2 H3|l1 l2 l3 L1 L2 L3 _ _ _];
    try (apply attemptOutcome_success in H1 as [-> _]);
    try (apply attemptOutcome_success in H2 as [-> _]);
    try (apply attemptOutcome_success in H3 as [-> _]);
    (split; [|split]).
  all: try (observe attempts attempts_logs; cbn [length]; lia).
  all: try (observe attempts attempts_logs; eexists; reflexivity).
  all: observe timing timing_logs; unfold fullSchedule; eexists; reflexivity.
Qed.

Lemma enrichRecord_retry_schedule_witness :
  exists run,
    enrichRecord Scenario.net500 Scenario.recX = Some run /\
    timing (effects run) = fullSchedule Scenario.recX /\
    (length (attempts (effects run)) <= 3)%nat /\
    attempts (effects run) `prefix_of` [1; 2; 3] /\
    timing (effects run) `prefix_of` fullSchedule Scenario.recX.
Proof.
  eexists. split; [vm_compute; reflexivity|]. split; [vm_compute; reflexivity|].
  apply (enrichRecord_retry_schedule Scenario.net500 Scenario.recX).
  vm_compute; reflexivity.
Defined.

(** C5, as stated, fails: when every attempt is answered with status 500
    the call gives up after waiting 1 s + 2 s = 3 s in total, which is less
    than 7 s. *)
Lemma backoff_seven_counterexample :
  exists run,
    enrichRecord Scenario.net500 Scenario.recX = Some run /\
    is_Some (err run) /\
    totalSleep (effects run) = 3 * Second /\
    ~ (7 * Second <= totalSleep (effects run)).
Proof.
  eexists. split; [vm_compute; reflexivity|].
  split; [vm_compute; eauto|]. split; [vm_compute; reflexivity|].
  vm_compute. intros H. apply H. reflexivity.
Qed.

(** C5, amended. When all enrichment attempts fail, the waits made by the
    call before it gives up are 1 s after the first attempt and 2 s after
    the second, 3 s in total; no wait follows the third attempt. *)
Theorem enrichRecord_failure_backoff net record run :
  enrichRecord net record = Some run ->
  is_Some (err run) ->
  timing (effects run) = fullSchedule record /\
  sleeps (effects run) = [Second; 2 * Second] /\
  totalSleep (effects run) = 3 * Second.
Proof.
  intros Hrun [e He]. apply enrichRecord_shape in Hrun.
  destruct Hrun as [| | |l1 l2 l3 L1 L2 L3 _ _ _]; try discriminate.
  assert (Hs : sleeps (effects
    (mkRun (attemptCall 1 record ++ l1 ++ Sleep Second ::
            attemptCall 2 record ++ l2 ++ Sleep (2 * Second) ::
            attemptCall 3 record ++ l3) record
       (Some "failed to enrich record after 3 attempts"))) = [Second; 2 * Second]).
  { observe sleeps sleeps_logs. reflexivity. }
  split; [|split].
  - observe timing timing_logs. reflexivity.
  - exact Hs.
  - unfold totalSleep. rewrite Hs. reflexivity.
Qed.

Lemma enrichRecord_failure_backoff_witness :
  exists run,
    enrichRecord Scenario.net500 Scenario.recX = Some run /\
    timing (effects run) = fullSchedule Scenario.recX /\
    sleeps (effects run) = [Second; 2 * Second] /\
    totalSleep (effects run) = 3 * Second.
Proof.
  eexists. split; [vm_compute; reflexivity|].
  apply (enrichRecord_failure_backoff Scenario.net500 Scenario.recX).
  - vm_compute; reflexivity.
  - vm_compute; eauto.
Defined.

(** C7, as stated, fails: the terminal error returned for record "X" is
    the same value as the one returned for record "Y", and the id "X" does
    not occur in its message; it names the attempt count only. *)
Lemma terminal_error_id_counterexample :
  exists runX runY msg,
    enrichRecord Scenario.net500 Scenario.recX = Some runX /\
    enrichRecord Scenario.net500 Scenario.recY = Some runY /\
    ID Scenario.recX <> ID Scenario.recY /\
    err runX = Some msg /\
    err runY = Some msg /\
    msg = "failed to enrich record after 3 attempts" /\
    String.index 0 (ID Scenario.recX) msg = None.
Proof.
  do 3 eexists.
  split; [vm_compute; reflexivity|]. split; [vm_compute; reflexivity|].
  split; [discriminate|].
  split; [vm_compute; reflexivity|]. split; [vm_compute; reflexivity|].
  split; vm_compute; reflexivity.
Qed.

(** C7, amended. When the final enrichment attempt fails, [enrichRecord]
    returns the unchanged record together with a terminal error stating the
    attempt count (3); the message is the same for every record.  The
    record's id is added by the intake handler, whose log line joins the id
    and the error. *)
Theorem enrichRecord_terminal_error net record run e :
  enrichRecord net record = Some run ->
  err run = Some e ->
  e = "failed to enrich record after " +:+ formatInt maxRetries +:+ " attempts" /\
  ret run = record /\
  attempts (effects run) = [1; 2; 3] /\
  forall body chan,
    processHandler (BodyRecord body record) net chan =
    Some (Finished
            (effects run ++
             [HttpError "Failed to enrich record" StatusInternalServerError;
              Log ("Error enriching record with ID " +:+ ID record +:+ ": " +:+ e)])
            chan).
Proof.
  intros Hrun He. pose proof Hrun as Hshape. apply enrichRecord_shape in Hshape.
  destruct Hshape as [| | |l1 l2 l3 L1 L2 L3 _ _ _]; try discriminate.
  injection He as <-.
  split; [reflexivity|]. split; [reflexivity|]. split.
  - observe attempts attempts_logs. reflexivity.
  - intros body chan. unfold processHandler. rewrite Hrun. reflexivity.
Qed.

Lemma enrichRecord_terminal_error_witness :
  exists run e,
    enrichRecord Scenario.net500 Scenario.recX = Some run /\
    err run = Some e /\
    e = "failed to enrich record after " +:+ formatInt maxRetries +:+ " attempts" /\
    ret run = Scenario.recX /\
    attempts (effects run) = [1; 2; 3] /\
    forall body chan,
      processHandler (BodyRecord body Scenario.recX) Scenario.net500 chan =
      Some (Finished
              (effects run ++
               [HttpError "Failed to enrich record" StatusInternalServerError;
                Log ("Error enriching record with ID " +:+ ID Scenario.recX
                     +:+ ": " +:+ e)])
              chan).
Proof.
  do 2 eexists. split; [vm_compute; reflexivity|]. split; [vm_compute; reflexivity|].
  apply (enrichRecord_terminal_error Scenario.net500 Scenario.recX);
    vm_compute; reflexivity.
Defined.

(** ** One step of the service *)

Lemma sendToAnalytics_effects records sink :
  dispatched (sendToAnalytics records sink).1 = [records] /\
  enqueued (sendToAnalytics records sink).1 = [].
Proof.
  destruct sink as [e|code e|code body [e|d]]; cbn [sendToAnalytics];
    try destruct (negb (code =? StatusOK)); split; reflexivity.
Qed.

(** On a tick the dispatcher sends the first 20 pending records (all of
    them when there are fewer) and keeps the rest; with nothing pending it
    does nothing. *)
Lemma dispatcherIteration_tick sink pending :
  let '(effs, pending') := dispatcherIteration (TickerFired sink) pending in
  pending' = drop 20 pending /\
  enqueued effs = [] /\
  dispatched effs = match pending with [] => [] | _ => [take 20 pending] end.
Proof.
  cbn [dispatcherIteration].
  destruct (decide (0 < length pending)%nat) as [Hpos|Hzero].
  - assert (Hne : match pending with [] => [] | _ => [take 20 pending] end
                  = [take 20 pending]).
    { destruct pending; [cbn in Hpos; lia|reflexivity]. }
    rewrite Hne; clear Hne.
    destruct (decide (20 <= length pending)%nat) as [Hfull|Hfew].
    + pose proof (sendToAnalytics_effects (take 20 pending) sink) as [Hd He].
      destruct (sendToAnalytics (take 20 pending) sink) as [effs [e|]];
        cbn [fst] in *; unfold enqueued, dispatched in *; rewrite !omap_app;
        rewrite Hd, He; repeat split; reflexivity.
    + pose proof (sendToAnalytics_effects pending sink) as [Hd He].
      rewrite (take_ge pending 20) by lia.
      rewrite (drop_ge pending 20) by lia.
      destruct (sendToAnalytics pending sink) as [effs [e|]];
        cbn [fst] in *; unfold enqueued, dispatched in *; rewrite !omap_app;
        rewrite Hd, He; repeat split; reflexivity.
  - destruct pending; [repeat split; reflexivity|cbn in Hzero; lia].
Qed.

Lemma step_tick sink s :
  exists s',
    step (Tick sink) s = Some s' /\
    recordChannel s' = recordChannel s /\
    batch s' = drop 20 (batch s) /\
    enqueued (trace s') = enqueued (trace s) /\
    dispatched (trace s') =
      dispatched (trace s) ++ match batch s with [] => [] | _ => [take 20 (batch s)] end.
Proof.
  unfold step. pose proof (dispatcherIteration_tick sink (batch s)) as H.
  destruct (dispatcherIteration (TickerFired sink) (batch s)) as [effs pending'].
  destruct H as (-> & He & Hd). eexists. split; [reflexivity|].
  cbn [recordChannel batch trace]. unfold enqueued, dispatched in *.
  rewrite !omap_app, He, Hd, app_nil_r. repeat split; reflexivity.
Qed.

Lemma step_receive s s' :
  step Receive s = Some s' ->
  exists r,
    recordChannel s = r :: recordChannel s' /\
    batch s' = batch s ++ [r] /\
    trace s' = trace s.
Proof.
  unfold step. destruct (recordChannel s) as [|r rest]; [discriminate|].
  cbn [dispatcherIteration]. intros [= <-]. exists r.
  cbn [recordChannel batch trace]. by rewrite app_nil_r.
Qed.

Lemma step_submit req net s s' :
  step (Submit req net) s = Some s' ->
  batch s' = batch s /\
  dispatched (trace s') = dispatched (trace s) /\
  match accepted (Submit req net) with
  | Some r =>
      (length (recordChannel s) < recordChannelCap)%nat /\
      recordChannel s' = recordChannel s ++ [r] /\
      enqueued (trace s') = enqueued (trace s) ++ [r]
  | None =>
      recordChannel s' = recordChannel s /\
      enqueued (trace s') = enqueued (trace s)
  end.
Proof.
  unfold step, processHandler, accepted.
  destruct req as [e|body e|body record].
  1,2: intros [= <-]; cbn [recordChannel batch trace];
       unfold enqueued, dispatched; rewrite !omap_app, !app_nil_r; by repeat split.
  destruct (enrichRecord net record) as [r|] eqn:Hrun; [|discriminate].
  pose proof (enrichRecord_enqueued _ _ _ Hrun) as He.
  pose proof (enrichRecord_dispatched _ _ _ Hrun) as Hd.
  destruct (err r) as [e|].
  { intros [= <-]; cbn [recordChannel batch trace].
    unfold enqueued, dispatched in *. rewrite !omap_app, He, Hd, !app_nil_r.
    by repeat split. }
  unfold chanSend.
  destruct (decide (length (recordChannel s) < recordChannelCap)%nat) as [Hroom|];
    [|discriminate].
  intros [= <-]; cbn [recordChannel batch trace].
  unfold enqueued, dispatched in *. rewrite !omap_app, He, Hd, !app_nil_r.
  by repeat split.
Qed.

Lemma run_app evs1 evs2 s :
  run (evs1 ++ evs2) s =
  match run evs1 s with Some s' => run evs2 s' | None => None end.
Proof.
  revert s. induction evs1 as [|e evs1 IH]; intros s; [reflexivity|].
  cbn [run app]. destruct (step e s); [apply IH|reflexivity].
Qed.

(** A property kept by every step holds along every execution. *)
Lemma run_invariant (P : System -> Prop) :
  (forall e s s', P s -> step e s = Some s' -> P s') ->
  forall evs s s', P s -> run evs s = Some s' -> P s'.
Proof.
  intros Hstep evs. induction evs as [|e evs IH]; intros s s' Hs; cbn [run].
  - by intros [= <-].
  - destruct (step e s) as [s1|] eqn:He; [|discriminate]. eauto.
Qed.

(** ** Invariants of the service *)

Lemma step_accounted e s s' :
  accounted s -> step e s = Some s' -> accounted s'.
Proof.
  unfold accounted. intros Hacc Hstep. destruct e as [req net| |sink].
  - apply step_submit in Hstep as (Hb & Hd & Hacc').
    rewrite Hb, Hd. destruct (accepted (Submit req net)) as [r|].
    + destruct Hacc' as (_ & -> & ->). rewrite Hacc. by rewrite <- !app_assoc.
    + destruct Hacc' as (-> & ->). exact Hacc.
  - apply step_receive in Hstep as (r & Hc & -> & ->).
    rewrite Hacc, Hc. by rewrite <- !app_assoc.
  - destruct (step_tick sink s) as (s1 & Hs1 & Hc & Hb & He & Hd).
    rewrite Hstep in Hs1. injection Hs1 as <-.
    rewrite Hc, Hb, He, Hd, Hacc, concat_app.
    destruct (batch s) as [|r pending].
    + cbn [concat drop]. by rewrite app_nil_r.
    + cbn [concat]. rewrite app_nil_r, <- !app_assoc.
      f_equal. by rewrite app_assoc, take_drop.
Qed.

Lemma step_batchesBounded e s s' :
  batchesBounded s -> step e s = Some s' -> batchesBounded s'.
Proof.
  unfold batchesBounded. intros Hbound Hstep. destruct e as [req net| |sink].
  - apply step_submit in Hstep as (_ & -> & _). exact Hbound.
  - apply step_receive in Hstep as (r & _ & _ & ->). exact Hbound.
  - destruct (step_tick sink s) as (s1 & Hs1 & _ & _ & _ & Hd).
    rewrite Hstep in Hs1. injection Hs1 as <-. rewrite Hd.
    apply Forall_app. split; [exact Hbound|].
    destruct (batch s) as [|r pending] eqn:Hpending; [constructor|].
    rewrite <- Hpending. apply Forall_cons. split; [|constructor].
    rewrite length_take, Hpending. cbn [length]. lia.
Qed.

Lemma step_channelBounded e s s' :
  channelBounded s -> step e s = Some s' -> channelBounded s'.
Proof.
  unfold channelBounded. intros Hbound Hstep. destruct e as [req net| |sink].
  - apply step_submit in Hstep as (_ & _ & Hacc).
    destruct (accepted (Submit req net)) as [r|].
    + destruct Hacc as (Hroom & -> & _). rewrite length_app. cbn [length]. lia.
    + destruct Hacc as (-> & _). exact Hbound.
  - apply step_receive in Hstep as (r & Hc & _ & _).
    rewrite Hc in Hbound. cbn [length] in Hbound. lia.
  - destruct (step_tick sink s) as (s1 & Hs1 & Hc & _).
    rewrite Hstep in Hs1. injection Hs1 as <-. by rewrite Hc.
Qed.

Lemma initial_accounted : accounted initial.
Proof. reflexivity. Qed.

Lemma initial_batchesBounded : batchesBounded initial.
Proof. constructor. Qed.

Lemma initial_channelBounded : channelBounded initial.
Proof. unfold channelBounded, initial, recordChannelCap. cbn. lia. Qed.

(** ** Batch dispatcher *)

(** C1. Every batch handed to the analytics sender holds at most 20
    records, and the batches sent so far, laid end to end, are an initial
    part of the sequence of records in the order they were handed to the
    buffer; what follows them is the pending slice and then the channel.
    So each batch keeps the order of enqueueing (FIFO drain). *)
Theorem dispatched_batches_bounded_fifo evs s :
  run evs initial = Some s ->
  Forall (fun b => (length b <= 20)%nat) (dispatched (trace s)) /\
  concat (dispatched (trace s)) `prefix_of` enqueued (trace s) /\
  enqueued (trace s) =
    concat (dispatched (trace s)) ++ batch s ++ recordChannel s.
Proof.
  intros Hrun.
  pose proof (run_invariant accounted step_accounted _ _ _
                initial_accounted Hrun) as Hacc.
  pose proof (run_invariant batchesBounded step_batchesBounded _ _ _
                initial_batchesBounded Hrun) as Hbound.
  split; [|split].
  - eapply Forall_impl; [exact Hbound|]. cbn. intros b Hb. lia.
  - rewrite Hacc. by eexists.
  - exact Hacc.
Qed.

Lemma dispatched_batches_bounded_fifo_witness :
  exists s,
    run (Scenario.burst 25 ++ [Tick Scenario.sinkOK; Tick Scenario.sinkDown])
        initial = Some s /\
    Forall (fun b => (length b <= 20)%nat) (dispatched (trace s)) /\
    concat (dispatched (trace s)) `prefix_of` enqueued (trace s) /\
    enqueued (trace s) =
      concat (dispatched (trace s)) ++ batch s ++ recordChannel s.
Proof.
  eexists. split; [vm_compute; reflexivity|].
  apply (dispatched_batches_bounded_fifo
           (Scenario.burst 25 ++ [Tick Scenario.sinkOK; Tick Scenario.sinkDown])).
  vm_compute; reflexivity.
Defined.

(** ** Intake handler *)

Lemma step_enqueued e s s' :
  step e s = Some s' ->
  enqueued (trace s') = enqueued (trace s) ++ option_list (accepted e).
Proof.
  intros Hstep. destruct e as [req net| |sink].
  - apply step_submit in Hstep as (_ & _ & Hacc).
    destruct (accepted (Submit req net)) as [r|]; cbn [option_list].
    + by destruct Hacc as (_ & _ & ->).
    + destruct Hacc as (_ & ->). by rewrite app_nil_r.
  - apply step_receive in Hstep as (r & _ & _ & ->). cbn. by rewrite app_nil_r.
  - destruct (step_tick sink s) as (s1 & Hs1 & _ & _ & He & _).
    rewrite Hstep in Hs1. injection Hs1 as <-. cbn. by rewrite app_nil_r.
Qed.

(** The records handed to the channel are exactly the results of the
    submissions whose enrichment succeeded, in order. *)
Lemma run_enqueued evs :
  forall s s', run evs s = Some s' ->
    enqueued (trace s') = enqueued (trace s) ++ omap accepted evs.
Proof.
  induction evs as [|e evs IH]; intros s s'; cbn [run].
  - intros [= <-]. by rewrite app_nil_r.
  - destruct (step e s) as [s1|] eqn:Hstep; [|discriminate].
    intros Hrun. rewrite (IH _ _ Hrun), (step_enqueued _ _ _ Hstep).
    rewrite <- app_assoc. f_equal.
    cbn [omap list_omap]. by destruct (accepted e).
Qed.

Lemma accepted_inv e r :
  accepted e = Some r ->
  exists body record net run,
    e = Submit (BodyRecord body record) net /\
    enrichRecord net record = Some run /\
    err run = None /\ ret run = r.
Proof.
  destruct e as [[e|body e|body record] net| |sink]; cbn [accepted]; try discriminate.
  destruct (enrichRecord net record) as [run|] eqn:Hrun; [|discriminate].
  destruct (err run) eqn:Herr; [discriminate|].
  intros [= <-]. by exists body, record, net, run.
Qed.

(** A submission whose enrichment fails is answered with status 500 and
    leaves the channel as it was. *)
Lemma processHandler_enrich_failure body record net chan :
  enrichFails net record ->
  exists run e,
    enrichRecord net record = Some run /\ err run = Some e /\
    enqueued (effects run) = [] /\
    processHandler (BodyRecord body record) net chan =
    Some (Finished
            (effects run ++
             [HttpError "Failed to enrich record" StatusInternalServerError;
              Log ("Error enriching record with ID " +:+ ID record +:+ ": " +:+ e)])
            chan).
Proof.
  intros (run & e & Hrun & Herr). exists run, e.
  repeat split; try assumption.
  - by eapply enrichRecord_enqueued.
  - unfold processHandler. by rewrite Hrun, Herr.
Qed.

(** C2. A record enters the buffer only after its enrichment succeeded:
    at every point of an execution, each record in the channel, in the
    pending slice or in a dispatched batch is the result of a submission
    whose enrichment succeeded.  A submission whose enrichment fails
    terminally is answered with status 500 (server error) and changes
    neither the channel nor the pending slice, and nothing is handed to the
    channel; so if every submission of an id fails, no record with that id
    is ever buffered or dispatched. *)
Theorem failed_enrichment_never_buffered evs s :
  run evs initial = Some s ->
  (forall r,
      r ∈ recordChannel s ++ batch s ++ concat (dispatched (trace s)) ->
      exists body record net run,
        Submit (BodyRecord body record) net ∈ evs /\
        enrichRecord net record = Some run /\ err run = None /\ ret run = r) /\
  (forall body record net,
      enrichFails net record ->
      exists run e,
        enrichRecord net record = Some run /\ err run = Some e /\
        enqueued (effects run) = [] /\
        step (Submit (BodyRecord body record) net) s =
        Some (mkSystem (recordChannel s) (batch s)
                (trace s ++ effects run ++
                 [HttpError "Failed to enrich record" StatusInternalServerError;
                  Log ("Error enriching record with ID " +:+ ID record
                       +:+ ": " +:+ e)]))) /\
  (forall x,
      (forall body record net,
          Submit (BodyRecord body record) net ∈ evs -> ID record = x ->
          enrichFails net record) ->
      forall r,
        r ∈ recordChannel s ++ batch s ++ concat (dispatched (trace s)) ->
        ID r <> x).
Proof.
  intros Hrun.
  assert (Hsrc : forall r,
      r ∈ recordChannel s ++ batch s ++ concat (dispatched (trace s)) ->
      exists body record net run,
        Submit (BodyRecord body record) net ∈ evs /\
        enrichRecord net record = Some run /\ err run = None /\ ret run = r).
  { intros r Hr.
    pose proof (run_invariant accounted step_accounted _ _ _
                  initial_accounted Hrun) as Hacc.
    pose proof (run_enqueued _ _ _ Hrun) as Henq. cbn [initial trace app] in Henq.
    change (enqueued []) with (@nil RecordT) in Henq. cbn [app] in Henq.
    assert (Hin : r ∈ omap accepted evs).
    { rewrite <- Henq, Hacc. rewrite !elem_of_app in *. tauto. }
    apply list_elem_of_omap in Hin as (e & He & Hacc').
    apply accepted_inv in Hacc' as (body & record & net & run' & -> & ? & ? & ?).
    by exists body, record, net, run'. }
  split; [exact Hsrc|]. split.
  - intros body record net Hfail.
    destruct (processHandler_enrich_failure body record net (recordChannel s) Hfail)
      as (run' & e & Hrun' & Herr & Henq & Hproc).
    exists run', e. repeat split; try assumption.
    unfold step. by rewrite Hproc.
  - intros x Hx r Hr Hid.
    destruct (Hsrc r Hr) as (body & record & net & run' & Hin & Hrun' & Herr & Hret).
    pose proof (enrichRecord_keeps_ID _ _ _ Hrun') as Hsame.
    rewrite Hret in Hsame.
    destruct (Hx body record net Hin) as (run'' & e & Hrun'' & Herr'').
    { by rewrite <- Hsame. }
    rewrite Hrun' in Hrun''. injection Hrun'' as <-. congruence.
Qed.

Lemma failed_enrichment_never_buffered_witness :
  exists s,
    run Scenario.rejectedX initial = Some s /\
    dispatched (trace s) <> [] /\
    forall r,
      r ∈ recordChannel s ++ batch s ++ concat (dispatched (trace s)) ->
      ID r <> "X".
Proof.
  eexists. split; [vm_compute; reflexivity|]. split; [discriminate|].
  refine (proj2 (proj2 (failed_enrichment_never_buffered Scenario.rejectedX _ _)) "X" _).
  - vm_compute; reflexivity.
  - intros body record net Hin Hid. unfold Scenario.rejectedX in Hin.
    rewrite !elem_of_cons in Hin.
    destruct Hin as [Hin|[Hin|[Hin|[Hin|Hin]]]]; try discriminate.
    + injection Hin as _ -> ->. eexists _, _. split; vm_compute; reflexivity.
    + injection Hin as _ -> ->. discriminate.
    + by apply elem_of_nil in Hin.
Defined.

(** ** Buffer capacity *)

(** A submission whose enrichment succeeds is accepted whenever the channel
    holds fewer than 20 records. *)
Lemma submit_accepted body record net run s :
  enrichRecord net record = Some run ->
  err run = None ->
  (length (recordChannel s) < recordChannelCap)%nat ->
  step (Submit (BodyRecord body record) net) s =
  Some (mkSystem (recordChannel s ++ [ret run]) (batch s)
          (trace s ++ effects run ++
           [ChanSend (ret run); WriteHeader StatusOK;
            EncodeJSON [("status", "record processed")]])).
Proof.
  intros Hrun Herr Hroom. unfold step, processHandler, chanSend.
  rewrite Hrun, Herr. by rewrite decide_True.
Qed.

Lemma enrichRecord_netOK record :
  exists run,
    enrichRecord Scenario.netOK record = Some run /\ err run = None.
Proof. rewrite enrichRecord_eq. eexists. split; reflexivity. Qed.

(** The dispatcher's pending slice can grow to any length. *)
Lemma pending_unbounded n :
  exists s,
    run (Scenario.burst n) initial = Some s /\
    recordChannel s = [] /\ length (batch s) = n.
Proof.
  induction n as [|n (s & Hrun & Hchan & Hlen)].
  - exists initial. by repeat split.
  - unfold Scenario.burst in *. rewrite seq_S, flat_map_app, run_app, Hrun.
    cbn [flat_map app Nat.add run].
    destruct (enrichRecord_netOK (Scenario.numbered n)) as (r & Hr & Herr).
    rewrite (submit_accepted _ _ _ r s Hr Herr)
      by (rewrite Hchan; unfold recordChannelCap; cbn; lia).
    rewrite Hchan. cbn [step recordChannel app dispatcherIteration batch trace].
    eexists. split; [reflexivity|]. cbn [recordChannel batch].
    split; [reflexivity|]. rewrite length_app, Hlen. cbn. lia.
Qed.

(** C6, as stated, fails: after 20 records have been submitted and received
    by the dispatcher, 20 records are held and yet a further hand-off is
    accepted at once, after which 21 records are held. *)
Lemma held_bound_counterexample :
  exists s s',
    run (Scenario.burst 20) initial = Some s /\
    held s = 20%nat /\
    step (Submit (BodyRecord "" (Scenario.numbered 20)) Scenario.netOK) s = Some s' /\
    held s' = 21%nat /\
    ~ (held s' <= recordChannelCap)%nat.
Proof.
  do 2 eexists.
  split; [vm_compute; reflexivity|]. split; [vm_compute; reflexivity|].
  split; [vm_compute; reflexivity|]. split; [vm_compute; reflexivity|].
  vm_compute. lia.
Qed.

(** C6, amended. At every point in an execution the channel between the
    producers and the dispatcher holds at most 20 records, and a producer's
    hand-off blocks exactly when the channel holds 20 records; the records
    the dispatcher has already received wait in its pending slice, which
    can grow to any length. *)
Theorem channel_bounded_blocks_when_full evs s :
  run evs initial = Some s ->
  (length (recordChannel s) <= recordChannelCap)%nat /\
  (forall body record net run,
      enrichRecord net record = Some run -> err run = None ->
      (processHandler (BodyRecord body record) net (recordChannel s)
         = Some (BlockedOnSend (effects run) (ret run))
       <-> length (recordChannel s) = recordChannelCap) /\
      (step (Submit (BodyRecord body record) net) s = None
       <-> length (recordChannel s) = recordChannelCap)) /\
  (forall n, exists evs' s',
      run evs' initial = Some s' /\ length (batch s') = n).
Proof.
  intros Hrun.
  pose proof (run_invariant channelBounded step_channelBounded _ _ _
                initial_channelBounded Hrun) as Hbound.
  unfold channelBounded in Hbound.
  split; [exact Hbound|]. split.
  - intros body record net r Hr Herr.
    destruct (decide (length (recordChannel s) < recordChannelCap)%nat) as [Hroom|Hfull].
    + rewrite (submit_accepted body record net r s Hr Herr Hroom).
      unfold processHandler, chanSend. rewrite Hr, Herr, decide_True by exact Hroom.
      split; (split; [discriminate|lia]).
    + unfold step, processHandler, chanSend.
      rewrite Hr, Herr, decide_False by exact Hfull.
      split; (split; [lia|reflexivity]).
  - intros n. destruct (pending_unbounded n) as (s' & Hs' & _ & Hlen).
    by exists (Scenario.burst n), s'.
Qed.

Lemma channel_bounded_blocks_when_full_witness :
  exists s,
    run (Scenario.flood 20) initial = Some s /\
    length (recordChannel s) = recordChannelCap /\
    step (Submit (BodyRecord "" (Scenario.numbered 20)) Scenario.netOK) s = None.
Proof.
  eexists. split; [vm_compute; reflexivity|]. split; [vm_compute; reflexivity|].
  refine (proj2 (proj2 (proj1 (proj2
    (channel_bounded_blocks_when_full (Scenario.flood 20) _ _))
    "" (Scenario.numbered 20) Scenario.netOK _ _ _)) _).
  - vm_compute; reflexivity.
  - vm_compute; reflexivity.
  - vm_compute; reflexivity.
  - vm_compute; reflexivity.
Defined.

(** ** Dispatch cycles *)

(** Between two ticks nothing is sent, and the pending slice only grows at
    its end. *)
Lemma run_no_tick evs :
  Forall (fun e => ~ isTick e) evs ->
  forall s s', run evs s = Some s' ->
    dispatched (trace s') = dispatched (trace s) /\
    batch s `prefix_of` batch s'.
Proof.
  induction 1 as [|e evs He _ IH]; intros s s'; cbn [run].
  - intros [= <-]. split; [reflexivity|]. exists []. by rewrite app_nil_r.
  - destruct (step e s) as [s1|] eqn:Hstep; [|discriminate].
    intros Hrun. destruct (IH _ _ Hrun) as (Hd & Hb).
    destruct e as [req net| |sink]; [| |by destruct He].
    + apply step_submit in Hstep as (Hb1 & Hd1 & _).
      rewrite Hd, Hd1, <- Hb1. by split.
    + apply step_receive in Hstep as (r & _ & Hb1 & Ht1).
      rewrite Hd, Ht1. split; [reflexivity|].
      rewrite Hb1 in Hb. by eapply prefix_app_l.
Qed.

(** C8. When 25 records have been submitted and received by the dispatcher
    before the first tick, the first tick sends exactly the 20 earliest in
    hand-off order and the tick one period later sends exactly the other 5.
    More generally, a tick that finds more than 20 pending records sends
    exactly the first 20; the remainder stays pending, is not sent before a
    later tick, and is still at the head of the pending slice then. *)
Theorem overflow_waits_for_next_cycle evs s rs sink1 sink2 :
  Forall (fun e => ~ isTick e) evs ->
  run evs initial = Some s ->
  recordChannel s = [] ->
  enqueued (trace s) = rs ->
  length rs = 25%nat ->
  (exists s1 s2,
      step (Tick sink1) s = Some s1 /\
      step (Tick sink2) s1 = Some s2 /\
      dispatched (trace s1) = [take 20 rs] /\
      batch s1 = drop 20 rs /\
      dispatched (trace s2) = [take 20 rs; drop 20 rs] /\
      length (take 20 rs) = 20%nat /\
      length (drop 20 rs) = 5%nat /\
      batch s2 = []) /\
  (forall s0 sink,
      (20 < length (batch s0))%nat ->
      exists s0',
        step (Tick sink) s0 = Some s0' /\
        dispatched (trace s0') = dispatched (trace s0) ++ [take 20 (batch s0)] /\
        length (take 20 (batch s0)) = 20%nat /\
        batch s0' = drop 20 (batch s0) /\
        length (batch s0') = (length (batch s0) - 20)%nat /\
        batch s0' <> [] /\
        forall evs' s0'',
          Forall (fun e => ~ isTick e) evs' ->
          run evs' s0' = Some s0'' ->
          dispatched (trace s0'') = dispatched (trace s0') /\
          drop 20 (batch s0) `prefix_of` batch s0'').
Proof.
  intros Hevs Hrun Hchan Henq Hlen. split.
  - pose proof (run_invariant accounted step_accounted _ _ _
                  initial_accounted Hrun) as Hacc.
    destruct (run_no_tick _ Hevs _ _ Hrun) as (Hd & _).
    unfold accounted in Hacc. rewrite Hd, Hchan, Henq in Hacc.
    cbn [initial trace dispatched omap list_omap concat app] in Hacc.
    rewrite app_nil_r in Hacc.
    destruct (step_tick sink1 s) as (s1 & Hs1 & _ & Hb1 & _ & Hd1).
    destruct (step_tick sink2 s1) as (s2 & Hs2 & _ & Hb2 & _ & Hd2).
    rewrite Hd in Hd1. cbn [initial trace dispatched omap list_omap app] in Hd1.
    rewrite <- Hacc in Hb1, Hd1.
    assert (Hd1' : dispatched (trace s1) = [take 20 rs]).
    { rewrite Hd1. destruct rs; [discriminate|reflexivity]. }
    assert (Hrest : length (drop 20 rs) = 5%nat) by (rewrite length_drop; lia).
    exists s1, s2. repeat split; try assumption.
    + rewrite Hd2, Hd1', Hb1.
      destruct (drop 20 rs) as [|r rest] eqn:Hdrop; [discriminate|].
      rewrite (take_ge (r :: rest)) by lia. reflexivity.
    + rewrite length_take. lia.
    + rewrite Hb2, Hb1. apply drop_ge. lia.
  - intros s0 sink Hmany.
    destruct (step_tick sink s0) as (s0' & Hs0' & _ & Hb & _ & Hd).
    exists s0'. split; [exact Hs0'|].
    assert (Hd' : dispatched (trace s0') = dispatched (trace s0) ++ [take 20 (batch s0)]).
    { rewrite Hd. destruct (batch s0); [cbn in Hmany; lia|reflexivity]. }
    assert (Hrest : length (batch s0') = (length (batch s0) - 20)%nat).
    { by rewrite Hb, length_drop. }
    repeat split; try assumption.
    + rewrite length_take. lia.
    + intros Hnil. rewrite Hnil in Hrest. cbn in Hrest. lia.
    + by eapply run_no_tick.
    + rewrite <- Hb. by eapply run_no_tick.
Qed.

Lemma overflow_waits_for_next_cycle_witness :
  exists s,
    run (Scenario.burst 25) initial = Some s /\
    enqueued (trace s) = map Scenario.delivered (seq 0 25) /\
    exists s1 s2,
      step (Tick Scenario.sinkOK) s = Some s1 /\
      step (Tick Scenario.sinkDown) s1 = Some s2 /\
      dispatched (trace s1) = [take 20 (enqueued (trace s))] /\
      dispatched (trace s2) =
        [take 20 (enqueued (trace s)); drop 20 (enqueued (trace s))].
Proof.
  eexists. split; [vm_compute; reflexivity|]. split; [vm_compute; reflexivity|].
  destruct (overflow_waits_for_next_cycle (Scenario.burst 25) _ _
              Scenario.sinkOK Scenario.sinkDown
              ltac:(repeat constructor; exact (fun H => H))
              ltac:(vm_compute; reflexivity)
              ltac:(vm_compute; reflexivity)
              eq_refl
              ltac:(vm_compute; reflexivity))
    as ((s1 & s2 & H1 & H2 & Hd1 & _ & Hd2 & _) & _).
  exists s1, s2. split; [exact H1|]. split; [exact H2|].
  split; [exact Hd1|exact Hd2].
Defined.

(** ** Delivery failure *)

(** The trace only grows. *)
Lemma step_trace e s s' :
  step e s = Some s' -> exists effs, trace s' = trace s ++ effs.
Proof.
  unfold step. destruct e as [req net| |sink].
  - destruct (processHandler req net (recordChannel s)) as [[effs chan'|]|];
      try discriminate. intros [= <-]. by eexists.
  - destruct (recordChannel s); [discriminate|].
    destruct (dispatcherIteration _ _). intros [= <-]. by eexists.
  - destruct (dispatcherIteration _ _). intros [= <-]. by eexists.
Qed.

Lemma run_trace evs :
  forall s s', run evs s = Some s' -> exists effs, trace s' = trace s ++ effs.
Proof.
  induction evs as [|e evs IH]; intros s s'; cbn [run].
  - intros [= <-]. exists []. by rewrite app_nil_r.
  - destruct (step e s) as [s1|] eqn:Hstep; [|discriminate].
    intros Hrun. apply step_trace in Hstep as (effs1 & H1).
    apply IH in Hrun as (effs2 & H2). exists (effs1 ++ effs2).
    by rewrite H2, H1, app_assoc.
Qed.

(** A tick whose delivery fails: the call is made once, the failure is
    logged, and the pending slice loses the batch all the same. *)
Lemma dispatcherIteration_tick_failure sink pending :
  pending <> [] ->
  sendFails sink ->
  exists effs msg,
    sendToAnalytics (take 20 pending) sink = (effs, Some msg) /\
    dispatcherIteration (TickerFired sink) pending =
    (effs ++ [Log ("Failed to send batch to Analytics Service: " +:+ msg)],
     drop 20 pending).
Proof.
  intros Hne Hfail. cbn [dispatcherIteration].
  assert (Hpos : (0 < length pending)%nat).
  { destruct pending; [done|cbn; lia]. }
  rewrite decide_True by exact Hpos.
  destruct (decide (20 <= length pending)%nat) as [Hfull|Hfew].
  - pose proof (Hfail (take 20 pending)) as Hsend.
    destruct (sendToAnalytics (take 20 pending) sink) as [effs [msg|]];
      [|by destruct Hsend].
    by exists effs, msg.
  - rewrite (take_ge pending 20), (drop_ge pending 20) by lia.
    pose proof (Hfail pending) as Hsend.
    destruct (sendToAnalytics pending sink) as [effs [msg|]];
      [|by destruct Hsend].
    by exists effs, msg.
Qed.

(** C9. When the delivery call fails for a batch, the call has been made
    once and the failure is logged; the batch's records are in neither the
    pending slice nor the channel afterwards, which are exactly as after a
    successful delivery.  The dispatcher goes on: the next tick sends the
    first 20 of what remains, and in every continuation the failed batch is
    followed by batches drawn from the records that were behind it; if the
    handed-off records are pairwise distinct, no record of the failed batch
    is ever sent again or held again. *)
Theorem failed_batch_is_lost evs s sink :
  run evs initial = Some s ->
  batch s <> [] ->
  sendFails sink ->
  exists s' msg,
    step (Tick sink) s = Some s' /\
    dispatched (trace s') = dispatched (trace s) ++ [take 20 (batch s)] /\
    last (trace s') =
      Some (Log ("Failed to send batch to Analytics Service: " +:+ msg)) /\
    recordChannel s' = recordChannel s /\
    batch s' = drop 20 (batch s) /\
    enqueued (trace s') = enqueued (trace s) /\
    (forall sink2 s2,
        step (Tick sink2) s = Some s2 ->
        recordChannel s2 = recordChannel s' /\ batch s2 = batch s') /\
    (forall sink2, exists s2,
        step (Tick sink2) s' = Some s2 /\
        dispatched (trace s2) =
          dispatched (trace s') ++
          match batch s' with [] => [] | _ => [take 20 (batch s')] end) /\
    (forall evs' s'',
        run evs' s' = Some s'' ->
        exists later,
          dispatched (trace s'') =
            dispatched (trace s) ++ [take 20 (batch s)] ++ later /\
          enqueued (trace s'') =
            concat (dispatched (trace s)) ++ take 20 (batch s) ++
            concat later ++ batch s'' ++ recordChannel s'' /\
          (NoDup (enqueued (trace s'')) ->
           forall r, r ∈ take 20 (batch s) ->
                     r ∉ concat later ++ batch s'' ++ recordChannel s'')).
Proof.
  intros Hrun Hne Hfail.
  destruct (step_tick sink s) as (s' & Hs' & Hc & Hb & He & Hd).
  destruct (dispatcherIteration_tick_failure sink (batch s) Hne Hfail)
    as (effs & msg & _ & Hiter).
  assert (Hd' : dispatched (trace s') = dispatched (trace s) ++ [take 20 (batch s)]).
  { rewrite Hd. by destruct (batch s). }
  exists s', msg. split; [exact Hs'|]. split; [exact Hd'|]. split.
  { unfold step in Hs'. rewrite Hiter in Hs'. injection Hs' as <-.
    cbn [trace]. by rewrite app_assoc, last_snoc. }
  split; [exact Hc|]. split; [exact Hb|]. split; [exact He|]. split.
  { intros sink2 s2 Hs2.
    destruct (step_tick sink2 s) as (s2' & Hs2' & Hc2 & Hb2 & _).
    rewrite Hs2 in Hs2'. injection Hs2' as <-. by rewrite Hc, Hb. }
  split.
  { intros sink2. destruct (step_tick sink2 s') as (s2 & Hs2 & _ & _ & _ & Hd2).
    by exists s2. }
  intros evs' s'' Hrun'.
  pose proof (run_invariant accounted step_accounted _ _ _
                initial_accounted Hrun) as Hacc.
  pose proof (step_accounted _ _ _ Hacc Hs') as Hacc'.
  pose proof (run_invariant accounted step_accounted _ _ _ Hacc' Hrun') as Hacc''.
  destruct (run_trace _ _ _ Hrun') as (more & Hmore).
  exists (dispatched more).
  assert (Hd'' : dispatched (trace s'') =
                 dispatched (trace s) ++ [take 20 (batch s)] ++ dispatched more).
  { rewrite Hmore. unfold dispatched at 1. rewrite omap_app.
    fold (dispatched (trace s')). fold (dispatched more).
    by rewrite Hd', <- app_assoc. }
  assert (He'' : enqueued (trace s'') =
                 concat (dispatched (trace s)) ++ take 20 (batch s) ++
                 concat (dispatched more) ++ batch s'' ++ recordChannel s'').
  { unfold accounted in Hacc''. rewrite Hacc'', Hd'', !concat_app.
    cbn [concat]. by rewrite app_nil_r, <- !app_assoc. }
  split; [exact Hd''|]. split; [exact He''|].
  intros Hnodup r Hr. rewrite He'' in Hnodup.
  apply NoDup_app in Hnodup as (_ & _ & Hnodup).
  apply NoDup_app in Hnodup as (_ & Hdisj & _). by apply Hdisj.
Qed.

Lemma failed_batch_is_lost_witness :
  exists s s' msg,
    run (Scenario.burst 10) initial = Some s /\
    length (batch s) = 10%nat /\
    step (Tick Scenario.sinkDown) s = Some s' /\
    dispatched (trace s') = dispatched (trace s) ++ [take 20 (batch s)] /\
    last (trace s') =
      Some (Log ("Failed to send batch to Analytics Service: " +:+ msg)) /\
    recordChannel s' = recordChannel s /\
    batch s' = drop 20 (batch s).
Proof.
  eexists.
  destruct (failed_batch_is_lost (Scenario.burst 10) _ Scenario.sinkDown
              ltac:(vm_compute; reflexivity)
              ltac:(vm_compute; discriminate)
              ltac:(intros records; cbn; discriminate))
    as (s' & msg & H1 & H2 & H3 & H4 & H5 & _).
  exists s', msg. split; [vm_compute; reflexivity|].
  split; [vm_compute; reflexivity|]. split; [exact H1|].
  split; [exact H2|]. split; [exact H3|]. split; [exact H4|exact H5].
Defined.

End ServiceTheory.

(** * Properties of the producer client *)

Module ClientTheory.
Import Client.

(** ** The synonym table *)

Lemma categoryEntries_keys_NoDup : NoDup categoryEntries.*1.
Proof. apply (bool_decide_unpack _). by vm_compute. Qed.

(** A property of all entries of the literal holds of all bindings of the
    map. *)
Lemma categoryMap_Forall (P : string -> string -> Prop) :
  Forall (fun kv => P kv.1 kv.2) categoryEntries ->
  forall k v, categoryMap !! k = Some v -> P k v.
Proof.
  intros HP k v Hkv. apply elem_of_list_to_map_2 in Hkv.
  rewrite Forall_forall in HP. exact (HP (k, v) Hkv).
Qed.

(** Every canonical token is itself a key, bound to itself. *)
Lemma categoryMap_canonical k v :
  categoryMap !! k = Some v -> categoryMap !! v = Some v.
Proof.
  revert k v. apply (categoryMap_Forall (fun _ v => categoryMap !! v = Some v)).
  apply (bool_decide_unpack _). by vm_compute.
Qed.

(** ** The ASCII functions *)

Lemma lowerByte_idem c : lowerByte (lowerByte c) = lowerByte c.
Proof. destruct c as [[] [] [] [] [] [] [] []]; reflexivity. Qed.

Lemma asciiSpace_lowerByte c : asciiSpace (lowerByte c) = asciiSpace c.
Proof. destruct c as [[] [] [] [] [] [] [] []]; reflexivity. Qed.

Lemma asciiToLower_idem s : asciiToLower (asciiToLower s) = asciiToLower s.
Proof.
  induction s as [|c s IH]; [reflexivity|].
  cbn [asciiToLower]. by rewrite lowerByte_idem, IH.
Qed.

Lemma trimLeft_asciiToLower s :
  asciiToLower (trimLeft s) = trimLeft (asciiToLower s).
Proof.
  induction s as [|c s IH]; [reflexivity|].
  cbn [asciiToLower trimLeft]. rewrite asciiSpace_lowerByte.
  destruct (asciiSpace c); [exact IH|reflexivity].
Qed.

Lemma trimRight_asciiToLower s :
  asciiToLower (trimRight s) = trimRight (asciiToLower s).
Proof.
  induction s as [|c s IH]; [reflexivity|].
  cbn [asciiToLower trimRight]. rewrite <- IH, asciiSpace_lowerByte.
  destruct (trimRight s) as [|d t]; cbn [asciiToLower]; [|reflexivity].
  destruct (asciiSpace c); reflexivity.
Qed.

Lemma asciiTrimSpace_asciiToLower s :
  asciiToLower (asciiTrimSpace s) = asciiTrimSpace (asciiToLower s).
Proof.
  unfold asciiTrimSpace. by rewrite trimRight_asciiToLower, trimLeft_asciiToLower.
Qed.

Lemma trimLeft_startsClean s : startsClean (trimLeft s).
Proof.
  induction s as [|c s IH]; [exact I|].
  cbn [trimLeft]. destruct (asciiSpace c) eqn:Hc; [exact IH|exact Hc].
Qed.

Lemma startsClean_trimLeft s : startsClean s -> trimLeft s = s.
Proof. destruct s as [|c s]; [reflexivity|]. cbn. by intros ->. Qed.

Lemma trimRight_startsClean s : startsClean s -> startsClean (trimRight s).
Proof.
  destruct s as [|c s]; [trivial|]. cbn [startsClean trimRight]. intros Hc.
  destruct (trimRight s); [by rewrite Hc|exact Hc].
Qed.

Lemma trimRight_idem s : trimRight (trimRight s) = trimRight s.
Proof.
  induction s as [|c s IH]; [reflexivity|].
  cbn [trimRight]. destruct (trimRight s) as [|d t] eqn:Hr.
  - destruct (asciiSpace c) eqn:Hc; [reflexivity|]. cbn [trimRight]. by rewrite Hc.
  - change (trimRight (String c (String d t)))
      with (match trimRight (String d t) with
            | EmptyString =>
                if asciiSpace c then EmptyString else String c EmptyString
            | r => String c r
            end).
    by rewrite IH.
Qed.

Lemma asciiTrimSpace_idem s :
  asciiTrimSpace (asciiTrimSpace s) = asciiTrimSpace s.
Proof.
  unfold asciiTrimSpace.
  rewrite (startsClean_trimLeft (trimRight (trimLeft s))).
  - apply trimRight_idem.
  - apply trimRight_startsClean, trimLeft_startsClean.
Qed.

Lemma ascii_lower_trimmed s :
  asciiToLower (asciiTrimSpace (asciiToLower s)) = asciiTrimSpace (asciiToLower s).
Proof. by rewrite asciiTrimSpace_asciiToLower, asciiToLower_idem. Qed.

Lemma ascii_canonical_normal k v :
  categoryMap !! k = Some v -> asciiTrimSpace (asciiToLower v) = v.
Proof.
  revert k v.
  apply (categoryMap_Forall (fun _ v => asciiTrimSpace (asciiToLower v) = v)).
  apply (bool_decide_unpack _). by vm_compute.
Qed.

(** ** Idempotence of the normalization *)

Section Sanitize.

Variables ToLower TrimSpace : string -> string.

(** Trimming twice is trimming once. *)
Hypothesis TrimSpace_idem :
  forall s, TrimSpace (TrimSpace s) = TrimSpace s.

(** A lower-cased string is still lower-cased after trimming. *)
Hypothesis ToLower_trimmed :
  forall s, ToLower (TrimSpace (ToLower s)) = TrimSpace (ToLower s).

(** The canonical tokens are lower-case and carry no outer space. *)
Hypothesis canonical_normal :
  forall k v, categoryMap !! k = Some v -> TrimSpace (ToLower v) = v.

Lemma normalize_idem s :
  normalize ToLower TrimSpace (normalize ToLower TrimSpace s)
  = normalize ToLower TrimSpace s.
Proof. unfold normalize. by rewrite ToLower_trimmed, TrimSpace_idem. Qed.

Lemma sanitizeCategory_canonical k v :
  categoryMap !! k = Some v -> sanitizeCategory ToLower TrimSpace v = v.
Proof.
  intros Hkv. unfold sanitizeCategory, normalize.
  rewrite (canonical_normal k v Hkv).
  by rewrite (categoryMap_canonical k v Hkv).
Qed.

Lemma sanitizeCategory_unmapped s :
  categoryMap !! normalize ToLower TrimSpace s = None ->
  sanitizeCategory ToLower TrimSpace s = normalize ToLower TrimSpace s /\
  sanitizeCategory ToLower TrimSpace (normalize ToLower TrimSpace s)
  = normalize ToLower TrimSpace s.
Proof.
  intros Hnone. unfold sanitizeCategory.
  rewrite normalize_idem, Hnone. by split.
Qed.

(** C10. The category normalization is idempotent: sanitizing a
    sanitized category changes nothing.  Every canonical token of the
    synonym table is a fixed point, and an input that is not in the table
    is returned lower-cased and trimmed, which is a fixed point too. *)
Theorem sanitizeCategory_idempotent category :
  sanitizeCategory ToLower TrimSpace (sanitizeCategory ToLower TrimSpace category)
  = sanitizeCategory ToLower TrimSpace category /\
  (forall k v,
      categoryMap !! k = Some v -> sanitizeCategory ToLower TrimSpace v = v) /\
  (categoryMap !! normalize ToLower TrimSpace category = None ->
   sanitizeCategory ToLower TrimSpace category
   = normalize ToLower TrimSpace category /\
   sanitizeCategory ToLower TrimSpace (normalize ToLower TrimSpace category)
   = normalize ToLower TrimSpace category).
Proof.
  split; [|split].
  - destruct (categoryMap !! normalize ToLower TrimSpace category)
      as [v|] eqn:Hlook.
    + assert (Hs : sanitizeCategory ToLower TrimSpace category = v).
      { unfold sanitizeCategory. by rewrite Hlook. }
      rewrite Hs. by eapply sanitizeCategory_canonical.
    + destruct (sanitizeCategory_unmapped category Hlook) as [-> Hfix].
      exact Hfix.
  - exact sanitizeCategory_canonical.
  - exact (sanitizeCategory_unmapped category).
Qed.

End Sanitize.

Lemma sanitizeCategory_idempotent_witness :
  sanitizeCategory asciiToLower asciiTrimSpace "  Phising " = "phishing" /\
  sanitizeCategory asciiToLower asciiTrimSpace
    (sanitizeCategory asciiToLower asciiTrimSpace "  Phising ")
  = sanitizeCategory asciiToLower asciiTrimSpace "  Phising ".
Proof.
  split; [vm_compute; reflexivity|].
  exact (proj1 (sanitizeCategory_idempotent asciiToLower asciiTrimSpace
                  asciiTrimSpace_idem ascii_lower_trimmed ascii_canonical_normal
                  "  Phising ")).
Defined.

(** On ASCII strings, where the functions above are those of the Go
    library, the normalization is idempotent without further assumption. *)
Lemma ascii_sanitizeCategory_idempotent s :
  sanitizeCategory asciiToLower asciiTrimSpace
    (sanitizeCategory asciiToLower asciiTrimSpace s)
  = sanitizeCategory asciiToLower asciiTrimSpace s.
Proof.
  destruct (categoryMap !! normalize asciiToLower asciiTrimSpace s) as [v|] eqn:Hlook.
  - assert (Hs : sanitizeCategory asciiToLower asciiTrimSpace s = v).
    { unfold sanitizeCategory. by rewrite Hlook. }
    rewrite Hs.
    exact (sanitizeCategory_canonical asciiToLower asciiTrimSpace
             ascii_canonical_normal _ _ Hlook).
  - by destruct (sanitizeCategory_unmapped asciiToLower asciiTrimSpace
                   asciiTrimSpace_idem ascii_lower_trimmed s Hlook) as [-> ?].
Qed.

End ClientTheory.

(** * Further properties of the service *)

Module ServiceMore.
Import Service ServiceTheory.

Lemma attemptOutcome_wellFormed attempt record reply :
  wellFormed reply = true ->
  exists body d,
    reply = Reply StatusOK body (inr d) /\
    attemptOutcome attempt record reply =
    ([], Some (mkRecord (ID record) (AssetName record) (IP record)
                 (CreatedUTC record) (Source record)
                 (dCategory d) (dASN d) (dCorrelationID d))).
Proof.
  destruct reply as [e|code e|code body [e|d]]; cbn [wellFormed]; try discriminate.
  intros Hcode. pose proof Hcode as Heq. apply Z.eqb_eq in Heq. subst code.
  exists body, d. split; [reflexivity|]. cbn [attemptOutcome]. by rewrite Hcode.
Qed.

Lemma attemptOutcome_not_wellFormed attempt record reply :
  wellFormed reply = false ->
  exists logs,
    Forall isLog logs /\ attemptOutcome attempt record reply = (logs, None).
Proof.
  destruct reply as [e|code e|code body [e|d]]; cbn [wellFormed attemptOutcome];
    intros Hwf; try rewrite Hwf; try destruct (code =? StatusOK);
    eexists; (split; [|reflexivity]); repeat constructor.
Qed.

(** X1. A call of [enrichRecord] succeeds exactly when one of its three
    attempts is answered with status 200 and a body that decodes; any other
    status, also another 2xx one, counts as a failed attempt. *)
Theorem enrichRecord_succeeds_iff net record run :
  enrichRecord net record = Some run ->
  (err run = None <->
   wellFormed (net 1) || wellFormed (net 2) || wellFormed (net 3) = true).
Proof.
  rewrite enrichRecord_eq.
  destruct (wellFormed (net 1)) eqn:W1.
  { destruct (attemptOutcome_wellFormed 1 record _ W1) as (b & d & _ & ->).
    intros [= <-]. by split. }
  destruct (attemptOutcome_not_wellFormed 1 record _ W1) as (l1 & _ & ->).
  destruct (wellFormed (net 2)) eqn:W2.
  { destruct (attemptOutcome_wellFormed 2 record _ W2) as (b & d & _ & ->).
    intros [= <-]. by split. }
  destruct (attemptOutcome_not_wellFormed 2 record _ W2) as (l2 & _ & ->).
  destruct (wellFormed (net 3)) eqn:W3.
  { destruct (attemptOutcome_wellFormed 3 record _ W3) as (b & d & _ & ->).
    intros [= <-]. by split. }
  destruct (attemptOutcome_not_wellFormed 3 record _ W3) as (l3 & _ & ->).
  intros [= <-]. split; discriminate.
Qed.

(** X2. The loop stops at the first attempt that succeeds: if attempt [k]
    is the first one answered with status 200 and a decodable body, the
    call makes exactly the attempts 1..k, waits only before the attempts it
    retries (nothing, 1 s, or 1 s and 2 s), returns the record overwritten
    with that answer, and never consults a later reply. *)
Theorem enrichRecord_stops_at_first_success net record k body d :
  1 <= k <= 3 ->
  (forall j, 1 <= j < k -> wellFormed (net j) = false) ->
  net k = Reply StatusOK body (inr d) ->
  exists run,
    enrichRecord net record = Some run /\
    err run = None /\
    ret run = mkRecord (ID record) (AssetName record) (IP record)
                (CreatedUTC record) (Source record)
                (dCategory d) (dASN d) (dCorrelationID d) /\
    attempts (effects run) = seqZ 1 k /\
    sleeps (effects run) = take (Z.to_nat (k - 1)) [Second; 2 * Second] /\
    forall net',
      (forall j, 1 <= j <= k -> net' j = net j) ->
      enrichRecord net' record = Some run.
Proof.
  intros Hk Hbefore Hnet.
  assert (Hcases : k = 1 \/ k = 2 \/ k = 3) by lia.
  assert (Hwf : wellFormed (net k) = true) by (by rewrite Hnet).
  destruct Hcases as [->|[->| ->]].
  - destruct (attemptOutcome_wellFormed 1 record _ Hwf) as (b & d' & Heq & H1).
    rewrite Hnet in Heq. injection Heq as <- <-.
    eexists. split; [rewrite enrichRecord_eq, H1; reflexivity|].
    repeat split.
    intros net' Hagree. rewrite enrichRecord_eq, (Hagree 1), H1 by lia. reflexivity.
  - destruct (attemptOutcome_wellFormed 2 record _ Hwf) as (b & d' & Heq & H2).
    rewrite Hnet in Heq. injection Heq as <- <-.
    destruct (attemptOutcome_not_wellFormed 1 record _ (Hbefore 1 ltac:(lia)))
      as (l1 & L1 & H1).
    eexists. split; [rewrite enrichRecord_eq, H1, H2; reflexivity|].
    split; [reflexivity|]. split; [reflexivity|]. split; [|split].
    + observe attempts attempts_logs. reflexivity.
    + observe sleeps sleeps_logs. reflexivity.
    + intros net' Hagree.
      rewrite enrichRecord_eq, (Hagree 1), (Hagree 2), H1, H2 by lia. reflexivity.
  - destruct (attemptOutcome_wellFormed 3 record _ Hwf) as (b & d' & Heq & H3).
    rewrite Hnet in Heq. injection Heq as <- <-.
    destruct (attemptOutcome_not_wellFormed 1 record _ (Hbefore 1 ltac:(lia)))
      as (l1 & L1 & H1).
    destruct (attemptOutcome_not_wellFormed 2 record _ (Hbefore 2 ltac:(lia)))
      as (l2 & L2 & H2).
    eexists. split; [rewrite enrichRecord_eq, H1, H2, H3; reflexivity|].
    split; [reflexivity|]. split; [reflexivity|]. split; [|split].
    + observe attempts attempts_logs. reflexivity.
    + observe sleeps sleeps_logs. reflexivity.
    + intros net' Hagree.
      rewrite enrichRecord_eq, (Hagree 1), (Hagree 2), (Hagree 3), H1, H2, H3 by lia.
      reflexivity.
Qed.

(** X3. A handler invocation is blocked exactly when its record was
    enriched successfully and the channel already holds 20 records:
    requests rejected for a bad body or a failed enrichment are answered
    whatever the state of the channel. *)
Theorem submit_blocked_iff req net s :
  step (Submit req net) s = None <->
  is_Some (accepted (Submit req net)) /\
  (recordChannelCap <= length (recordChannel s))%nat.
Proof.
  unfold step, processHandler, accepted, chanSend.
  destruct req as [e|body e|body record].
  1,2: split; [discriminate|by intros [[? ?] _]].
  destruct (enrichRecord_total net record) as [run Hrun]. rewrite Hrun.
  destruct (err run) as [e|].
  { split; [discriminate|by intros [[? ?] _]]. }
  destruct (decide (length (recordChannel s) < recordChannelCap)%nat) as [Hroom|Hfull].
  - split; [discriminate|]. intros [_ ?]. lia.
  - split; [|reflexivity]. intros _. split; [eauto|lia].
Qed.

(** X8. [sendToAnalytics] returns no error exactly when the sink answers
    with status 200 and a body that decodes, whatever count the answer
    reports; in every case it makes one delivery call, carrying the records
    it was given, in order. *)
Theorem sendToAnalytics_outcome records sink :
  ((sendToAnalytics records sink).2 = None <-> wellFormed sink = true) /\
  dispatched (sendToAnalytics records sink).1 = [records].
Proof.
  split.
  - destruct sink as [e|code e|code body [e|d]]; cbn [sendToAnalytics wellFormed];
      try (split; discriminate);
      destruct (code =? StatusOK); cbn [negb snd]; split; try discriminate; reflexivity.
  - apply sendToAnalytics_effects.
Qed.

Lemma sendToAnalytics_answers records sink :
  acks (sendToAnalytics records sink).1 = [] /\
  rejections (sendToAnalytics records sink).1 = [].
Proof.
  destruct sink as [e|code e|code body [e|d]]; cbn [sendToAnalytics];
    try destruct (negb (code =? StatusOK)); split; reflexivity.
Qed.

Lemma enrichRecord_answers net record run :
  enrichRecord net record = Some run ->
  acks (effects run) = [] /\ rejections (effects run) = [].
Proof.
  intros Hrun. apply enrichRecord_shape in Hrun.
  assert (acks_logs : forall l, Forall isLog l -> acks l = []).
  { intros l. by apply omap_logs. }
  assert (rejections_logs : forall l, Forall isLog l -> rejections l = []).
  { intros l. by apply omap_logs. }
  destruct Hrun as [l1 e H1|l1 l2 e L1 H2|l1 l2 l3 e L1 L2 H3|l1 l2 l3 L1 L2 L3 _ _ _];
    try (apply attemptOutcome_success in H1 as [-> _]);
    try (apply attemptOutcome_success in H2 as [-> _]);
    try (apply attemptOutcome_success in H3 as [-> _]);
    (split; [observe acks acks_logs|observe rejections rejections_logs]); reflexivity.
Qed.

(** What one step adds to the answers given to callers. *)
Lemma step_answers e s s' :
  step e s = Some s' ->
  exists a r,
    acks (trace s') = acks (trace s) ++ a /\
    rejections (trace s') = rejections (trace s) ++ r /\
    match e with
    | Submit req net =>
        match accepted e with
        | Some _ => a = [StatusOK] /\ r = []
        | None =>
            a = [] /\
            (r = [StatusBadRequest] \/ r = [StatusInternalServerError])
        end
    | _ => a = [] /\ r = []
    end.
Proof.
  unfold step. destruct e as [req net| |sink].
  - unfold processHandler, accepted.
    destruct req as [e|body e|body record].
    1,2: intros [= <-]; cbn [trace]; unfold acks, rejections; rewrite !omap_app;
         eexists _, _; split; [reflexivity|]; split; [reflexivity|]; cbn; eauto.
    destruct (enrichRecord net record) as [run|] eqn:Hrun; [|discriminate].
    destruct (enrichRecord_answers _ _ _ Hrun) as [Ha Hr].
    destruct (err run) as [e|].
    + intros [= <-]; cbn [trace]. unfold acks, rejections in *.
      rewrite !omap_app, Ha, Hr.
      eexists _, _; split; [reflexivity|]; split; [reflexivity|]; cbn; eauto.
    + destruct (chanSend (ret run) (recordChannel s)); [|discriminate].
      intros [= <-]; cbn [trace]. unfold acks, rejections in *.
      rewrite !omap_app, Ha, Hr.
      eexists _, _; split; [reflexivity|]; split; [reflexivity|]; cbn; eauto.
  - destruct (recordChannel s); [discriminate|]. cbn [dispatcherIteration].
    intros [= <-]; cbn [trace]. exists [], []. by rewrite !app_nil_r.
  - cbn [dispatcherIteration].
    destruct (decide (0 < length (batch s))%nat).
    + destruct (decide (20 <= length (batch s))%nat).
      * pose proof (sendToAnalytics_answers (take 20 (batch s)) sink) as [Ha Hr].
        destruct (sendToAnalytics (take 20 (batch s)) sink) as [effs [e|]];
          cbn [fst] in *; intros [= <-]; cbn [trace]; unfold acks, rejections in *;
          rewrite !omap_app, Ha, Hr; exists [], []; by rewrite !app_nil_r.
      * pose proof (sendToAnalytics_answers (batch s) sink) as [Ha Hr].
        destruct (sendToAnalytics (batch s) sink) as [effs [e|]];
          cbn [fst] in *; intros [= <-]; cbn [trace]; unfold acks, rejections in *;
          rewrite !omap_app, Ha, Hr; exists [], []; by rewrite !app_nil_r.
    + intros [= <-]; cbn [trace]. exists [], []. by rewrite !app_nil_r.
Qed.

Lemma run_answers evs :
  forall s s', run evs s = Some s' ->
    acks (trace s') =
      acks (trace s) ++
      replicate (length (enqueued (trace s')) - length (enqueued (trace s))) StatusOK /\
    (length (acks (trace s')) + length (rejections (trace s')) =
     length (acks (trace s)) + length (rejections (trace s)) + countSubmits evs)%nat /\
    (Forall (fun c => c = StatusBadRequest \/ c = StatusInternalServerError)
            (rejections (trace s)) ->
     Forall (fun c => c = StatusBadRequest \/ c = StatusInternalServerError)
            (rejections (trace s'))).
Proof.
  induction evs as [|e evs IH]; intros s s'; cbn [run].
  - intros [= <-]. rewrite Nat.sub_diag. cbn. rewrite app_nil_r.
    unfold countSubmits. cbn. split; [done|]. split; [lia|done].
  - destruct (step e s) as [s1|] eqn:Hstep; [|discriminate].
    intros Hrun. destruct (IH _ _ Hrun) as (Ha & Hcount & Hrej).
    pose proof (run_enqueued _ _ _ Hrun) as Henq.
    pose proof (step_enqueued _ _ _ Hstep) as Henq1.
    destruct (step_answers _ _ _ Hstep) as (a & r & Ha1 & Hr1 & Hcase).
    assert (Hlen : (length a + length r =
                   countSubmits (e :: evs) - countSubmits evs)%nat /\
                   a = replicate (length (option_list (accepted e))) StatusOK /\
                   Forall (fun c => c = StatusBadRequest \/ c = StatusInternalServerError) r /\
                   (countSubmits evs <= countSubmits (e :: evs))%nat).
    { unfold countSubmits. destruct e as [req net| |sink]; cbn [omap list_omap length].
      - destruct (accepted (Submit req net)).
        + destruct Hcase as [-> ->]. cbn [length option_list replicate].
          split; [lia|]. split; [reflexivity|]. split; [constructor|lia].
        + destruct Hcase as [-> [-> | ->]]; cbn [length option_list replicate];
            (split; [lia|]); (split; [reflexivity|]);
            (split; [|lia]); (apply Forall_cons; split; [eauto|constructor]).
      - destruct Hcase as [-> ->]. cbn [length option_list accepted replicate].
        split; [lia|]. split; [reflexivity|]. split; [constructor|lia].
      - destruct Hcase as [-> ->]. cbn [length option_list accepted replicate].
        split; [lia|]. split; [reflexivity|]. split; [constructor|lia]. }
    destruct Hlen as (Hl1 & Hl2 & Hl3 & Hl4).
    split; [|split].
    + rewrite Ha, Ha1, Hl2, <- app_assoc. f_equal.
      rewrite <- replicate_add. f_equal.
      rewrite Henq, Henq1, !length_app. lia.
    + rewrite Hcount, Ha1, Hr1, !length_app. lia.
    + intros Hs. apply Hrej. rewrite Hr1. apply Forall_app. by split.
Qed.

(** X4. Every submission that has run to its end was answered exactly
    once: the answers are as many as the submissions, the status-200
    answers are as many as the records handed to the channel, and every
    other answer is a 400 or a 500. *)
Theorem every_submission_answered_once evs s :
  run evs initial = Some s ->
  (length (acks (trace s)) + length (rejections (trace s)) = countSubmits evs)%nat /\
  acks (trace s) = replicate (length (enqueued (trace s))) StatusOK /\
  Forall (fun c => c = StatusBadRequest \/ c = StatusInternalServerError)
         (rejections (trace s)).
Proof.
  intros Hrun. destruct (run_answers _ _ _ Hrun) as (Ha & Hcount & Hrej).
  cbn in Ha, Hcount. rewrite Nat.sub_0_r in Ha.
  repeat split; try assumption. apply Hrej. constructor.
Qed.

Lemma run_dispatched_ticks evs :
  forall s s', run evs s = Some s' ->
    (length (dispatched (trace s')) <=
     length (dispatched (trace s)) + countTicks evs)%nat.
Proof.
  induction evs as [|e evs IH]; intros s s'; cbn [run].
  - intros [= <-]. lia.
  - destruct (step e s) as [s1|] eqn:Hstep; [|discriminate].
    intros Hrun. apply IH in Hrun.
    unfold countTicks in *. destruct e as [req net| |sink]; cbn [omap list_omap length].
    + apply step_submit in Hstep as (_ & Hd & _). rewrite Hd in Hrun. lia.
    + apply step_receive in Hstep as (r & _ & _ & Ht). rewrite Ht in Hrun. lia.
    + destruct (step_tick sink s) as (s2 & Hs2 & _ & _ & _ & Hd).
      rewrite Hstep in Hs2. injection Hs2 as <-.
      rewrite Hd, length_app in Hrun.
      destruct (batch s); cbn [length] in Hrun; lia.
Qed.

Lemma concat_length_bound {A} (n : nat) (l : list (list A)) :
  Forall (fun b => (length b <= n)%nat) l ->
  (length (concat l) <= n * length l)%nat.
Proof.
  induction 1 as [|b l Hb _ IH]; cbn [concat length]; [lia|].
  rewrite length_app. lia.
Qed.

(** X5. The dispatcher sends at most one batch per tick: in every
    execution the number of delivery calls is at most the number of ticks,
    and the number of records delivered at most 20 times the number of
    ticks. *)
Theorem one_batch_per_tick evs s :
  run evs initial = Some s ->
  (length (dispatched (trace s)) <= countTicks evs)%nat /\
  (length (concat (dispatched (trace s))) <= 20 * countTicks evs)%nat.
Proof.
  intros Hrun. pose proof (run_dispatched_ticks _ _ _ Hrun) as Hticks.
  cbn [initial trace dispatched omap list_omap length] in Hticks.
  split; [lia|].
  pose proof (run_invariant batchesBounded step_batchesBounded _ _ _
                initial_batchesBounded Hrun) as Hbound.
  assert (Hle : Forall (fun b : list RecordT => (length b <= 20)%nat)
                       (dispatched (trace s))).
  { eapply Forall_impl; [exact Hbound|]. cbn. lia. }
  apply concat_length_bound in Hle. lia.
Qed.

(** X6. No empty batch is ever sent, and a tick that finds nothing
    pending changes nothing: no call, no log line. *)
Theorem no_empty_batch evs s :
  run evs initial = Some s ->
  Forall (fun b => b <> []) (dispatched (trace s)) /\
  (forall sink, batch s = [] -> step (Tick sink) s = Some s).
Proof.
  intros Hrun. split.
  - pose proof (run_invariant batchesBounded step_batchesBounded _ _ _
                  initial_batchesBounded Hrun) as Hbound.
    eapply Forall_impl; [exact Hbound|]. cbn. intros b Hb ->. cbn in Hb. lia.
  - intros sink Hempty. unfold step. cbn [dispatcherIteration]. rewrite Hempty.
    cbn [length]. rewrite decide_False by lia.
    destruct s as [c b t]; cbn in *. subst b. by rewrite app_nil_r.
Qed.

Lemma run_ticks sinks :
  forall s, exists s' later,
    run (map Tick sinks) s = Some s' /\
    recordChannel s' = recordChannel s /\
    enqueued (trace s') = enqueued (trace s) /\
    batch s' = drop (20 * length sinks) (batch s) /\
    dispatched (trace s') = dispatched (trace s) ++ later /\
    concat later = take (20 * length sinks) (batch s).
Proof.
  induction sinks as [|sink sinks IH]; intros s.
  - exists s, []. cbn. by rewrite app_nil_r.
  - destruct (step_tick sink s) as (s1 & Hs1 & Hc1 & Hb1 & He1 & Hd1).
    destruct (IH s1) as (s' & later & Hrun & Hc & He & Hb & Hd & Hlater).
    exists s', (match batch s with [] => [] | _ => [take 20 (batch s)] end ++ later).
    cbn [map run]. rewrite Hs1. split; [exact Hrun|].
    split; [congruence|]. split; [congruence|].
    cbn [length]. replace (20 * S (length sinks))%nat with (20 + 20 * length sinks)%nat by lia.
    split; [|split].
    + by rewrite Hb, Hb1, drop_drop.
    + by rewrite Hd, Hd1, <- app_assoc.
    + rewrite concat_app, Hlater, Hb1, take_drop_commute.
      assert (Hfirst : concat match batch s with [] => [] | _ => [take 20 (batch s)] end
                       = take 20 (take (20 + 20 * length sinks) (batch s))).
      { rewrite take_take.
        replace (20 `min` (20 + 20 * length sinks))%nat with 20%nat by lia.
        destruct (batch s); [reflexivity|]. cbn [concat]. by rewrite app_nil_r. }
      by rewrite Hfirst, take_drop.
Qed.

(** X7. Ticks drain the pending slice in order, 20 records at a time,
    whatever the sink answers: after [k] ticks with no record received in
    between, the batches sent are the first [20 k] pending records and the
    rest stays pending; once [20 k] reaches the number of pending records,
    all of them have been sent and the slice is empty. *)
Theorem ticks_drain_pending sinks s :
  exists s' later,
    run (map Tick sinks) s = Some s' /\
    recordChannel s' = recordChannel s /\
    batch s' = drop (20 * length sinks) (batch s) /\
    dispatched (trace s') = dispatched (trace s) ++ later /\
    concat later = take (20 * length sinks) (batch s) /\
    ((length (batch s) <= 20 * length sinks)%nat ->
     batch s' = [] /\ concat later = batch s).
Proof.
  destruct (run_ticks sinks s) as (s' & later & Hrun & Hc & _ & Hb & Hd & Hl).
  exists s', later. repeat split; try assumption.
  - rewrite Hb. by apply drop_ge.
  - rewrite Hl. by apply take_ge.
Qed.






Lemma enrichRecord_succeeds_iff_witness :
  exists run,
    enrichRecord Scenario.netFlaky Scenario.recX = Some run /\
    (err run = None <->
     wellFormed (Scenario.netFlaky 1) || wellFormed (Scenario.netFlaky 2)
     || wellFormed (Scenario.netFlaky 3) = true).
Proof.
  eexists. split; [vm_compute; reflexivity|].
  apply (enrichRecord_succeeds_iff Scenario.netFlaky Scenario.recX).
  vm_compute; reflexivity.
Defined.

Lemma enrichRecord_stops_at_first_success_witness :
  exists run,
    enrichRecord Scenario.netFlaky Scenario.recX = Some run /\
    attempts (effects run) = [1; 2] /\
    sleeps (effects run) = [Second].
Proof.
  destruct (enrichRecord_stops_at_first_success
              Scenario.netFlaky Scenario.recX 2 "ok"
              (mkEnriched "AS64500" "phishing" 42)
              ltac:(lia)
              ltac:(intros j Hj; replace j with 1 by lia; reflexivity)
              eq_refl)
    as (run & Hrun & _ & _ & Ha & Hs & _).
  exists run. split; [exact Hrun|]. split; [exact Ha|exact Hs].
Defined.

Lemma every_submission_answered_once_witness :
  exists s,
    run Scenario.mixed initial = Some s /\
    rejections (trace s) = [StatusBadRequest; StatusInternalServerError] /\
    (length (acks (trace s)) + length (rejections (trace s))
     = countSubmits Scenario.mixed)%nat /\
    acks (trace s) = replicate (length (enqueued (trace s))) StatusOK /\
    Forall (fun c => c = StatusBadRequest \/ c = StatusInternalServerError)
           (rejections (trace s)).
Proof.
  eexists. split; [vm_compute; reflexivity|]. split; [vm_compute; reflexivity|].
  apply (every_submission_answered_once Scenario.mixed).
  vm_compute; reflexivity.
Defined.

Lemma one_batch_per_tick_witness :
  exists s,
    run Scenario.mixed initial = Some s /\
    (length (dispatched (trace s)) <= countTicks Scenario.mixed)%nat /\
    (length (concat (dispatched (trace s))) <= 20 * countTicks Scenario.mixed)%nat.
Proof.
  eexists. split; [vm_compute; reflexivity|].
  apply (one_batch_per_tick Scenario.mixed).
  vm_compute; reflexivity.
Defined.

Lemma no_empty_batch_witness :
  exists s,
    run Scenario.mixed initial = Some s /\
    length (dispatched (trace s)) = 1%nat /\
    Forall (fun b => b <> []) (dispatched (trace s)) /\
    (forall sink, batch s = [] -> step (Tick sink) s = Some s).
Proof.
  eexists. split; [vm_compute; reflexivity|]. split; [vm_compute; reflexivity|].
  apply (no_empty_batch Scenario.mixed).
  vm_compute; reflexivity.
Defined.


End ServiceMore.

(** * Further properties of the producer client *)

Module ClientMore.
Import Client ClientTheory.

Lemma wrap64_small z : - 2 ^ 63 <= z < 2 ^ 63 -> wrap64 z = z.
Proof.
  intros Hz. unfold wrap64. rewrite Z.mod_small by lia. lia.
Qed.

Lemma numberedFrom_cons first r rest :
  numberedFrom first (r :: rest) = (first, r) :: numberedFrom (first + 1) rest.
Proof.
  unfold numberedFrom. cbn [length]. rewrite seqZ_cons by lia.
  cbn [zip zip_with]. repeat f_equal; lia.
Qed.

Section Reading.

Variables ToLower TrimSpace : string -> string.

(** Whether a row is kept, and the record it yields, do not depend on its
    line number. *)
Lemma classifyRow_keptRecord n r :
  match classifyRow ToLower TrimSpace n r with
  | Keep record => keptRecord ToLower TrimSpace r = Some record
  | Skip _ => keptRecord ToLower TrimSpace r = None
  end.
Proof.
  unfold Client.keptRecord, Client.classifyRow. destruct r as [row|e]; [|reflexivity].
  destruct (negb (length row =? 6)%nat); [reflexivity|].
  destruct (String.eqb _ _); reflexivity.
Qed.

(** A data row is either kept or skipped. *)
Lemma row_alternative n r :
  (exists record,
      classifyRow ToLower TrimSpace n r = Keep record /\
      keptRecord ToLower TrimSpace r = Some record /\
      skippedLine ToLower TrimSpace (n, r) = None /\
      skipMessage ToLower TrimSpace (n, r) = None) \/
  (exists message,
      classifyRow ToLower TrimSpace n r = Skip message /\
      keptRecord ToLower TrimSpace r = None /\
      skippedLine ToLower TrimSpace (n, r) = Some n /\
      skipMessage ToLower TrimSpace (n, r) = Some message).
Proof.
  pose proof (classifyRow_keptRecord n r) as Hkept.
  unfold Client.skippedLine, Client.skipMessage. cbn [fst snd].
  destruct (classifyRow ToLower TrimSpace n r) as [record|message];
    [left; exists record|right; exists message]; by repeat split.
Qed.

Lemma readLoop_spec reads :
  forall n st,
    1 <= n -> n + Z.of_nat (length reads) < 2 ^ 63 ->
    readLoop ToLower TrimSpace reads n st =
    mkReadState
      (records st ++ omap (keptRecord ToLower TrimSpace) reads)
      (skippedRecords st ++
       omap (skippedLine ToLower TrimSpace) (numberedFrom (n + 1) reads))
      (printed st ++
       omap (skipMessage ToLower TrimSpace) (numberedFrom (n + 1) reads)).
Proof.
  induction reads as [|r rest IH]; intros n st Hn Hbound.
  - cbn. rewrite !app_nil_r. by destruct st.
  - cbn [Client.readLoop]. cbn [length] in Hbound.
    rewrite wrap64_small by lia.
    destruct (n + 1 =? 1) eqn:Hone; [apply Z.eqb_eq in Hone; lia|].
    rewrite numberedFrom_cons. cbn [omap list_omap].
    destruct (row_alternative (n + 1) r)
      as [(record & -> & -> & -> & ->)|(message & -> & -> & -> & ->)];
      rewrite IH by lia; cbn [records skippedRecords printed];
      by rewrite <- ?app_assoc.
Qed.

(** X10. [readCSV] on a file that opens: the first row is dropped
    whatever it holds, even when the reader rejected it; the records returned are those
    of the kept rows, in file order, and the skipped line numbers and the
    printed lines are those of the other data rows, in file order, with
    rows counted from 1.  (The file has fewer than 2^63 rows.) *)
Theorem readCSV_declarative reads :
  Z.of_nat (length reads) < 2 ^ 63 ->
  readCSV ToLower TrimSpace (Opened reads) =
  (mkReadState
     (omap (keptRecord ToLower TrimSpace) (drop 1 reads))
     (omap (skippedLine ToLower TrimSpace) (drop 1 (numberedFrom 1 reads)))
     (omap (skipMessage ToLower TrimSpace) (drop 1 (numberedFrom 1 reads))),
   None).
Proof.
  intros Hbound. unfold Client.readCSV. destruct reads as [|header rest]; [reflexivity|].
  cbn [Client.readLoop]. change (wrap64 (0 + 1) =? 1) with true. cbv iota.
  change (wrap64 (0 + 1)) with 1. cbn [length] in Hbound.
  rewrite readLoop_spec by lia. rewrite numberedFrom_cons. reflexivity.
Qed.

Lemma kept_or_skipped reads :
  forall n,
    (length (omap (keptRecord ToLower TrimSpace) reads) +
     length (omap (skippedLine ToLower TrimSpace) (numberedFrom n reads))
     = length reads)%nat /\
    length (omap (skipMessage ToLower TrimSpace) (numberedFrom n reads)) =
    length (omap (skippedLine ToLower TrimSpace) (numberedFrom n reads)).
Proof.
  induction reads as [|r rest IH]; intros n; [by split|].
  rewrite numberedFrom_cons. cbn [omap list_omap length].
  destruct (IH (n + 1)) as [IH1 IH2].
  destruct (row_alternative n r)
    as [(record & _ & -> & -> & ->)|(message & _ & -> & -> & ->)];
    cbn [length]; split; lia.
Qed.

(** X11. Every data row is either returned as a record or reported as
    skipped, never both and never neither: records and skipped lines
    together are as many as the rows after the header, and one line is
    printed for each skipped row. *)
Theorem readCSV_partition reads st e :
  Z.of_nat (length reads) < 2 ^ 63 ->
  readCSV ToLower TrimSpace (Opened reads) = (st, e) ->
  e = None /\
  (length (records st) + length (skippedRecords st) = length reads - 1)%nat /\
  length (printed st) = length (skippedRecords st).
Proof.
  intros Hbound. unfold Client.readCSV. destruct reads as [|header rest].
  { intros [= <- <-]. by repeat split. }
  cbn [Client.readLoop]. change (wrap64 (0 + 1) =? 1) with true. cbv iota.
  change (wrap64 (0 + 1)) with 1. cbn [length] in Hbound.
  rewrite readLoop_spec by lia. intros [= <- <-].
  cbn [records skippedRecords printed length app].
  destruct (kept_or_skipped rest (1 + 1)) as [H1 H2].
  split; [reflexivity|]. split; [lia|exact H2].
Qed.

Lemma skipped_increasing reads :
  forall n,
    StronglySorted Z.lt
      (omap (skippedLine ToLower TrimSpace) (numberedFrom n reads)) /\
    Forall (fun k => n <= k < n + Z.of_nat (length reads))
           (omap (skippedLine ToLower TrimSpace) (numberedFrom n reads)).
Proof.
  induction reads as [|r rest IH]; intros n; [split; constructor|].
  rewrite numberedFrom_cons. cbn [omap list_omap length].
  destruct (IH (n + 1)) as [IHs IHb].
  assert (Hb : Forall (fun k => n <= k < n + Z.of_nat (S (length rest)))
                 (omap (skippedLine ToLower TrimSpace) (numberedFrom (n + 1) rest))).
  { eapply Forall_impl; [exact IHb|]. cbn. intros k Hk. lia. }
  destruct (row_alternative n r)
    as [(record & _ & _ & -> & _)|(message & _ & _ & -> & _)]; [by split|].
  split.
  - constructor; [exact IHs|]. eapply Forall_impl; [exact IHb|]. cbn. lia.
  - constructor; [lia|exact Hb].
Qed.

(** X12. The skipped line numbers are reported in strictly increasing
    order, each between 2 and the number of rows: line 1 is never reported
    and no line is reported twice. *)
Theorem readCSV_skipped_lines reads st e :
  Z.of_nat (length reads) < 2 ^ 63 ->
  readCSV ToLower TrimSpace (Opened reads) = (st, e) ->
  StronglySorted Z.lt (skippedRecords st) /\
  Forall (fun k => 2 <= k <= Z.of_nat (length reads)) (skippedRecords st).
Proof.
  intros Hbound. unfold Client.readCSV. destruct reads as [|header rest].
  { intros [= <- <-]. split; constructor. }
  cbn [Client.readLoop]. change (wrap64 (0 + 1) =? 1) with true. cbv iota.
  change (wrap64 (0 + 1)) with 1. cbn [length] in Hbound.
  rewrite readLoop_spec by lia. intros [= <- <-].
  cbn [skippedRecords app].
  destruct (skipped_increasing rest (1 + 1)) as [Hs Hb].
  split; [exact Hs|]. eapply Forall_impl; [exact Hb|].
  cbn [length]. intros k Hk. cbn beta in Hk. lia.
Qed.

End Reading.

(** Every record collected by the loop comes from a kept row. *)
Lemma readLoop_records (ToLower TrimSpace : string -> string)
    (P : RecordT -> Prop) reads :
  (forall r record, keptRecord ToLower TrimSpace r = Some record -> P record) ->
  forall n st,
    Forall P (records st) ->
    Forall P (records (readLoop ToLower TrimSpace reads n st)).
Proof.
  intros HP. induction reads as [|r rest IH]; intros n st Hst; [exact Hst|].
  cbn [Client.readLoop]. destruct (wrap64 (n + 1) =? 1); [by apply IH|].
  pose proof (classifyRow_keptRecord ToLower TrimSpace (wrap64 (n + 1)) r) as Hkept.
  destruct (classifyRow ToLower TrimSpace (wrap64 (n + 1)) r) as [record|message];
    apply IH; cbn [records]; [|exact Hst].
  apply Forall_app. split; [exact Hst|]. repeat constructor. by eapply HP.
Qed.

Lemma keptRecord_fields (ToLower TrimSpace : string -> string) r record :
  keptRecord ToLower TrimSpace r = Some record ->
  exists row,
    r = RowOK row /\ length row = 6%nat /\
    record = mkRecord (nth 0 row "") (nth 1 row "") (nth 2 row "")
               (nth 3 row "") (nth 4 row "")
               (sanitizeCategory ToLower TrimSpace (nth 5 row "")) /\
    Category record <> "".
Proof.
  unfold keptRecord, classifyRow. destruct r as [row|e]; [|discriminate].
  destruct (length row =? 6)%nat eqn:Hlen; cbn [negb]; [|discriminate].
  apply Nat.eqb_eq in Hlen.
  destruct (String.eqb _ _) eqn:Hblank; [discriminate|].
  apply String.eqb_neq in Hblank. intros [= <-]. by exists row.
Qed.

Section Categories.

Variables ToLower TrimSpace : string -> string.

Hypothesis TrimSpace_idem :
  forall s, TrimSpace (TrimSpace s) = TrimSpace s.

Hypothesis ToLower_trimmed :
  forall s, ToLower (TrimSpace (ToLower s)) = TrimSpace (ToLower s).

Hypothesis canonical_normal :
  forall k v, categoryMap !! k = Some v -> TrimSpace (ToLower v) = v.

(** A sanitized category is in normal form, and it is either a canonical
    token or not in the table at all. *)
Lemma sanitizeCategory_result s :
  let c := sanitizeCategory ToLower TrimSpace s in
  normalize ToLower TrimSpace c = c /\
  ToLower c = c /\
  (categoryMap !! c = Some c \/ categoryMap !! c = None).
Proof.
  cbn zeta. unfold sanitizeCategory.
  destruct (categoryMap !! normalize ToLower TrimSpace s) as [v|] eqn:Hlook.
  - pose proof (canonical_normal _ _ Hlook) as Hv.
    split; [exact Hv|]. split.
    + rewrite <- Hv at 1. by rewrite ToLower_trimmed.
    + left. by eapply categoryMap_canonical.
  - split; [by apply normalize_idem|]. split; [apply ToLower_trimmed|by right].
Qed.

Lemma readCSV_records_sanitized file st e :
  readCSV ToLower TrimSpace file = (st, e) ->
  Forall (fun record =>
            Category record <> "" /\
            normalize ToLower TrimSpace (Category record) = Category record /\
            ToLower (Category record) = Category record /\
            (categoryMap !! Category record = Some (Category record) \/
             categoryMap !! Category record = None))
         (records st).
Proof.
  unfold readCSV. destruct file as [err|reads].
  { intros [= <- <-]. constructor. }
  intros [= <- <-]. apply readLoop_records; [|constructor].
  intros r record Hkept.
  apply keptRecord_fields in Hkept as (row & _ & _ & -> & Hne).
  cbn [Category] in *. split; [exact Hne|].
  apply sanitizeCategory_result.
Qed.

(** X13. Every record returned by [readCSV] has a non-blank category
    that is already sanitized: sanitizing it again returns it, and it is
    either a canonical token of the table or not in the table at all, never
    one of the other spellings. *)
Theorem readCSV_categories file st e :
  readCSV ToLower TrimSpace file = (st, e) ->
  Forall (fun record =>
            Category record <> "" /\
            sanitizeCategory ToLower TrimSpace (Category record) = Category record /\
            (categoryMap !! Category record = Some (Category record) \/
             categoryMap !! Category record = None))
         (records st).
Proof.
  intros Hread. eapply Forall_impl; [by eapply readCSV_records_sanitized|].
  cbn beta. intros record (Hne & Hnorm & _ & Hlook).
  split; [exact Hne|]. split; [|exact Hlook].
  unfold sanitizeCategory. rewrite Hnorm. by destruct Hlook as [-> | ->].
Qed.

End Categories.

Section Filtering.

Variable EqualFold : string -> string -> bool.

Lemma fold_left_filter (p : RecordT -> bool) (rs acc : list RecordT) :
  fold_left (fun filtered record => if p record then filtered ++ [record] else filtered)
            rs acc
  = acc ++ filter (fun record => Is_true (p record)) rs.
Proof.
  revert acc. induction rs as [|r rs IH]; intros acc; cbn [fold_left].
  - by rewrite app_nil_r.
  - rewrite IH. destruct (p r) eqn:Hp.
    + rewrite filter_cons_True by (rewrite Hp; exact I). by rewrite <- app_assoc.
    + rewrite filter_cons_False by (rewrite Hp; exact (fun H => H)). reflexivity.
Qed.

Lemma filterRecordsByCategory_filter rs category :
  filterRecordsByCategory EqualFold rs category
  = filter (fun record => Is_true (EqualFold (Category record) category)) rs.
Proof. unfold filterRecordsByCategory. by rewrite fold_left_filter. Qed.

Lemma filterRecordsById_filter rs id :
  filterRecordsById EqualFold rs id
  = filter (fun record => Is_true (EqualFold (ID record) id)) rs.
Proof. unfold filterRecordsById. by rewrite fold_left_filter. Qed.

Lemma filter_all {A} (P : A -> Prop) `{!forall x, Decision (P x)} (l : list A) :
  (forall x, P x) -> filter P l = l.
Proof.
  intros HP. induction l as [|x l IH]; [reflexivity|].
  rewrite filter_cons_True by apply HP. by rewrite IH.
Qed.

(** The two optional filters of [main] select the records that pass every
    filter whose flag is set. *)
Lemma selectRecords_filter rs filterCategory filterId :
  selectRecords EqualFold rs filterCategory filterId
  = filter (fun record =>
              (filterCategory <> "" ->
               Is_true (EqualFold (Category record) filterCategory)) /\
              (filterId <> "" -> Is_true (EqualFold (ID record) filterId)))
           rs.
Proof.
  unfold selectRecords.
  destruct (String.eqb_spec filterCategory "") as [->|Hc];
    destruct (String.eqb_spec filterId "") as [->|Hi]; cbn [negb];
    rewrite ?filterRecordsByCategory_filter, ?filterRecordsById_filter.
  - symmetry. apply filter_all. intros record. split; by intros [].
  - apply list_filter_iff. intros record. split; [|tauto].
    intros H. split; [by intros []|done].
  - apply list_filter_iff. intros record. split; [|tauto].
    intros H. split; [done|by intros []].
  - rewrite list_filter_filter. apply list_filter_iff. intros record. tauto.
Qed.

(** X14. The records [main] sends are those that pass every filter whose
    flag is set, in their original order; selecting twice with the same
    flags is selecting once, and the two filters can be applied in either
    order. *)
Theorem selectRecords_spec rs filterCategory filterId :
  selectRecords EqualFold rs filterCategory filterId `sublist_of` rs /\
  (forall record,
      record ∈ selectRecords EqualFold rs filterCategory filterId <->
      record ∈ rs /\
      (filterCategory <> "" -> EqualFold (Category record) filterCategory = true) /\
      (filterId <> "" -> EqualFold (ID record) filterId = true)) /\
  selectRecords EqualFold
    (selectRecords EqualFold rs filterCategory filterId) filterCategory filterId
  = selectRecords EqualFold rs filterCategory filterId /\
  filterRecordsById EqualFold (filterRecordsByCategory EqualFold rs filterCategory) filterId
  = filterRecordsByCategory EqualFold (filterRecordsById EqualFold rs filterId) filterCategory.
Proof.
  split; [|split; [|split]].
  - rewrite selectRecords_filter. apply sublist_filter.
  - intros record. rewrite selectRecords_filter, list_elem_of_filter.
    rewrite !Is_true_true. tauto.
  - rewrite !selectRecords_filter, list_filter_filter.
    apply list_filter_iff. intros record. tauto.
  - rewrite !filterRecordsByCategory_filter, !filterRecordsById_filter.
    rewrite !list_filter_filter. apply list_filter_iff. intros record. tauto.
Qed.

End Filtering.

(** ** On ASCII input *)

Lemma filter_none {A} (P : A -> Prop) `{!forall x, Decision (P x)} (l : list A) :
  Forall (fun x => ~ P x) l -> filter P l = [].
Proof.
  induction 1 as [|x l Hx _ IH]; [reflexivity|].
  by rewrite filter_cons_False.
Qed.

(** X15. The category flag is compared with the sanitized categories
    without being sanitized itself: a flag that is a spelling of the table
    other than its canonical token (in any letter case) matches no record
    read from a file. *)
Theorem synonym_flag_selects_nothing file st e flag v :
  readCSV asciiToLower asciiTrimSpace file = (st, e) ->
  categoryMap !! asciiToLower flag = Some v ->
  v <> asciiToLower flag ->
  filterRecordsByCategory asciiEqualFold (records st) flag = [].
Proof.
  intros Hread Hflag Hsyn. rewrite filterRecordsByCategory_filter.
  apply filter_none.
  eapply Forall_impl;
    [exact (readCSV_records_sanitized asciiToLower asciiTrimSpace
              asciiTrimSpace_idem ascii_lower_trimmed ascii_canonical_normal
              _ _ _ Hread)|].
  cbn beta. intros record (_ & _ & Hlower & Hlook) Hfold.
  apply Is_true_true in Hfold. unfold asciiEqualFold in Hfold.
  apply String.eqb_eq in Hfold. rewrite Hlower in Hfold.
  rewrite Hfold, Hflag in Hlook. destruct Hlook as [[= ->]|]; [|discriminate].
  by apply Hsyn.
Qed.

(** Every spelling of the table, lower-cased, is a key bound to the same
    token. *)
Lemma categoryMap_lower k v :
  categoryMap !! k = Some v -> categoryMap !! asciiToLower k = Some v.
Proof.
  revert k v.
  apply (categoryMap_Forall (fun k v => categoryMap !! asciiToLower k = Some v)).
  apply (bool_decide_unpack _). by vm_compute.
Qed.

(** X16. Every spelling of the table is recognised whatever its letter
    case and surrounding blanks: an input that, once trimmed, equals a key
    of the table up to letter case is sanitized to that key's canonical
    token.  This covers the two capitalised keys, which are never looked up
    themselves. *)
Theorem table_spellings_sanitize k v s :
  categoryMap !! k = Some v ->
  asciiEqualFold (asciiTrimSpace s) k = true ->
  sanitizeCategory asciiToLower asciiTrimSpace s = v.
Proof.
  intros Hk Hfold. unfold asciiEqualFold in Hfold. apply String.eqb_eq in Hfold.
  unfold sanitizeCategory, normalize.
  rewrite <- asciiTrimSpace_asciiToLower, Hfold.
  by rewrite (categoryMap_lower _ _ Hk).
Qed.

Lemma allSpace_asciiToLower s : allSpace (asciiToLower s) = allSpace s.
Proof.
  induction s as [|c s IH]; [reflexivity|].
  cbn [asciiToLower allSpace]. by rewrite asciiSpace_lowerByte, IH.
Qed.

Lemma trimLeft_empty s : trimLeft s = "" <-> allSpace s = true.
Proof.
  induction s as [|c s IH]; [done|]. cbn [trimLeft allSpace].
  destruct (asciiSpace c); cbn [andb]; [exact IH|]. split; discriminate.
Qed.

Lemma trimRight_empty s : startsClean s -> trimRight s = "" -> s = "".
Proof.
  destruct s as [|c s]; [done|]. cbn [startsClean trimRight]. intros ->.
  destruct (trimRight s); discriminate.
Qed.

Lemma asciiTrimSpace_empty s : asciiTrimSpace s = "" <-> allSpace s = true.
Proof.
  unfold asciiTrimSpace. rewrite <- trimLeft_empty. split.
  - apply trimRight_empty, trimLeft_startsClean.
  - by intros ->.
Qed.

Lemma categoryMap_tokens_not_empty k v : categoryMap !! k = Some v -> v <> "".
Proof.
  revert k v. apply (categoryMap_Forall (fun _ v => v <> "")).
  apply (bool_decide_unpack _). by vm_compute.
Qed.

Lemma sanitizeCategory_empty s :
  sanitizeCategory asciiToLower asciiTrimSpace s = "" <-> allSpace s = true.
Proof.
  rewrite <- allSpace_asciiToLower, <- asciiTrimSpace_empty.
  unfold sanitizeCategory, normalize.
  destruct (categoryMap !! asciiTrimSpace (asciiToLower s)) as [v|] eqn:Hlook; [|done].
  pose proof (categoryMap_tokens_not_empty _ _ Hlook) as Hv.
  split; [done|]. intros Hempty. rewrite Hempty in Hlook. by vm_compute in Hlook.
Qed.

(** X17. A row that was read without error is dropped exactly when it
    does not have 6 fields or its category holds nothing but space bytes;
    otherwise it yields the record with its first five fields as they are
    and the sanitized category. *)
Theorem row_kept_iff row :
  (keptRecord asciiToLower asciiTrimSpace (RowOK row) = None <->
   length row <> 6%nat \/ allSpace (nth 5 row "") = true) /\
  (forall record,
      keptRecord asciiToLower asciiTrimSpace (RowOK row) = Some record ->
      record = mkRecord (nth 0 row "") (nth 1 row "") (nth 2 row "")
                 (nth 3 row "") (nth 4 row "")
                 (sanitizeCategory asciiToLower asciiTrimSpace (nth 5 row ""))).
Proof.
  split.
  - unfold keptRecord, classifyRow.
    destruct (Nat.eqb_spec (length row) 6) as [Hlen|Hlen]; cbn [negb];
      [|split; [by left|done]].
    destruct (String.eqb_spec
                (sanitizeCategory asciiToLower asciiTrimSpace (nth 5 row "")) "")
      as [Hblank|Hblank].
    + split; [|done]. intros _. right. by apply sanitizeCategory_empty.
    + split; [discriminate|]. intros [?|Hspace]; [done|].
      by apply sanitizeCategory_empty in Hspace.
  - intros record Hkept.
    by apply keptRecord_fields in Hkept as (row' & [= <-] & _ & -> & _).
Qed.

Lemma readCSV_declarative_witness :
  records (readCSV asciiToLower asciiTrimSpace
             (Opened ClientScenario.sampleReads)).1
  = [mkRecord "1" "web-01" "10.0.0.1" "2021-01-01T00:00:00Z" "ids" "phishing";
     mkRecord "5" "db-02" "10.0.0.5" "2021-01-03T00:00:00Z" "edr" "ransomware"] /\
  skippedRecords (readCSV asciiToLower asciiTrimSpace
                    (Opened ClientScenario.sampleReads)).1 = [3; 4; 5] /\
  readCSV asciiToLower asciiTrimSpace (Opened ClientScenario.sampleReads) =
  (mkReadState
     (omap (keptRecord asciiToLower asciiTrimSpace)
           (drop 1 ClientScenario.sampleReads))
     (omap (skippedLine asciiToLower asciiTrimSpace)
           (drop 1 (numberedFrom 1 ClientScenario.sampleReads)))
     (omap (skipMessage asciiToLower asciiTrimSpace)
           (drop 1 (numberedFrom 1 ClientScenario.sampleReads))),
   None).
Proof.
  split; [vm_compute; reflexivity|]. split; [vm_compute; reflexivity|].
  apply (readCSV_declarative asciiToLower asciiTrimSpace ClientScenario.sampleReads).
  vm_compute; reflexivity.
Defined.

Lemma readCSV_partition_witness :
  exists st e,
    readCSV asciiToLower asciiTrimSpace (Opened ClientScenario.sampleReads) = (st, e) /\
    e = None /\
    (length (records st) + length (skippedRecords st)
     = length ClientScenario.sampleReads - 1)%nat /\
    length (printed st) = length (skippedRecords st).
Proof.
  eexists _, _. split; [vm_compute; reflexivity|].
  apply (readCSV_partition asciiToLower asciiTrimSpace ClientScenario.sampleReads);
    vm_compute; reflexivity.
Defined.

Lemma readCSV_skipped_lines_witness :
  exists st e,
    readCSV asciiToLower asciiTrimSpace (Opened ClientScenario.sampleReads) = (st, e) /\
    StronglySorted Z.lt (skippedRecords st) /\
    Forall (fun k => 2 <= k <= Z.of_nat (length ClientScenario.sampleReads))
           (skippedRecords st).
Proof.
  eexists _, _. split; [vm_compute; reflexivity|].
  apply (readCSV_skipped_lines asciiToLower asciiTrimSpace ClientScenario.sampleReads _ None);
    vm_compute; reflexivity.
Defined.

Lemma readCSV_categories_witness :
  exists st e,
    readCSV asciiToLower asciiTrimSpace (Opened ClientScenario.sampleReads) = (st, e) /\
    Forall (fun record =>
              Category record <> "" /\
              sanitizeCategory asciiToLower asciiTrimSpace (Category record)
              = Category record /\
              (categoryMap !! Category record = Some (Category record) \/
               categoryMap !! Category record = None))
           (records st).
Proof.
  eexists _, _. split; [vm_compute; reflexivity|].
  apply (readCSV_categories asciiToLower asciiTrimSpace
           asciiTrimSpace_idem ascii_lower_trimmed ascii_canonical_normal
           (Opened ClientScenario.sampleReads) _ None).
  vm_compute; reflexivity.
Defined.

Lemma synonym_flag_selects_nothing_witness :
  exists st e,
    readCSV asciiToLower asciiTrimSpace (Opened ClientScenario.sampleReads) = (st, e) /\
    filterRecordsByCategory asciiEqualFold (records st) "phishing" <> [] /\
    filterRecordsByCategory asciiEqualFold (records st) "Phising" = [].
Proof.
  eexists _, _. split; [vm_compute; reflexivity|]. split; [vm_compute; discriminate|].
  apply (synonym_flag_selects_nothing
           (Opened ClientScenario.sampleReads) _ None "Phising" "phishing").
  - vm_compute; reflexivity.
  - vm_compute; reflexivity.
  - discriminate.
Defined.

Lemma table_spellings_sanitize_witness :
  sanitizeCategory asciiToLower asciiTrimSpace "  PHISING " = "phishing".
Proof.
  apply (table_spellings_sanitize "phising" "phishing" "  PHISING ");
    vm_compute; reflexivity.
Defined.

End ClientMore.
